(** * Raft core: cluster configurations and log slices

    A shallow embedding of the value types of the Raft core header
    (clustering/generic/raft_core.hpp): [raft_config_t],
    [raft_complex_config_t], [raft_log_entry_t], [raft_log_t] and the timing
    constants of [raft_member_t], followed by the properties of their
    methods.

    Conventions.
    - [uint64_t] and [size_t] values are integers of [Z]; every arithmetic
      operation of the source is followed by its reduction modulo 2^64.
    - [std::set<machine_id_t>] is a [gset]; [machine_id_t] itself is a
      parameter (the header only needs its equality and its order).
    - A failed [guarantee] and an out-of-range container access are results
      of their own, see [result]. *)

From Stdlib Require Import ZArith Lia String.
From stdpp Require Import base decidable countable strings gmap fin_sets list.

#[local] Set Warnings "-clear-no-such-hyp".

Local Open Scope Z_scope.

(** ** Machine integers *)

Module Uint64.

Definition modulus : Z := 2 ^ 64.
Definition max : Z := modulus - 1.

Definition wrap (z : Z) : Z := z mod modulus.

Definition add (a b : Z) : Z := wrap (a + b).
Definition sub (a b : Z) : Z := wrap (a - b).
Definition mul (a b : Z) : Z := wrap (a * b).

(** A result of [size()]: the conversion of a length to [size_t]. *)
Definition of_nat (n : nat) : Z := wrap (Z.of_nat n).

Definition in_range (z : Z) : Prop := 0 <= z <= max.

End Uint64.

(** ** Results of code that may stop on a [guarantee] *)

Inductive result (A : Type) : Type :=
  | Ok (a : A)
  | GuaranteeFailed (msg : string)
  | OutOfBounds.

Arguments Ok {A} a.
Arguments GuaranteeFailed {A} msg.
Arguments OutOfBounds {A}.

#[global] Instance result_ret : MRet result := fun A a => Ok a.

#[global] Instance result_bind : MBind result := fun A B k r =>
  match r with
  | Ok a => k a
  | GuaranteeFailed msg => GuaranteeFailed msg
  | OutOfBounds => OutOfBounds
  end.

Definition guarantee (cond : bool) (msg : string) : result unit :=
  if cond then Ok tt else GuaranteeFailed msg.

(** ** [std::set<machine_id_t>] *)

Section std_set.
Context `{Countable machine_id_t}.

(** [s.count(m)]: 1 when [m] is in the set, 0 otherwise. *)
Definition count (s : gset machine_id_t) (m : machine_id_t) : Z :=
  if decide (m ∈ s) then 1 else 0.

(** [dst.insert(src.begin(), src.end())]. *)
Definition insert_range (dst src : gset machine_id_t) : gset machine_id_t :=
  foldl (fun acc m => {[ m ]} ∪ acc) dst (elements src).

(** A [machine_id_t] is a UUID of 16 bytes, and [size_t] counts the bytes
  of the address space: a set that exists holds at most
  [Uint64.max / 16] of them. *)
Definition sizeof_machine_id_t : Z := 16.

Definition fits_in_memory (s : gset machine_id_t) : Prop :=
  Z.of_nat (size s) * sizeof_machine_id_t <= Uint64.max.

(** Strictly more than half of [V] is present in [S]. *)
Definition strict_majority (V S : gset machine_id_t) : Prop :=
  (size V < 2 * size (S ∩ V))%nat.

End std_set.

(** ** [raft_config_t] *)

Module raft_config_t.
Section defs.
Context `{Countable machine_id_t}.

Record t : Type := mk {
  voting_members : gset machine_id_t;
  non_voting_members : gset machine_id_t
  }.

Definition get_all_members (c : t) : gset machine_id_t :=
  let members := ∅ in
  let members := insert_range members (voting_members c) in
  let members := insert_range members (non_voting_members c) in
  members.

(** The loop of [is_quorum]: one pass over [members], in the order of the
  set's iterator. *)
Definition count_votes (c : t) (members : gset machine_id_t) : Z :=
  foldl (fun votes m => Uint64.add votes (count (voting_members c) m))
        0 (elements members).

Definition is_quorum (c : t) (members : gset machine_id_t) : bool :=
  let votes := count_votes c members in
  bool_decide (Uint64.mul votes 2 > Uint64.of_nat (size (voting_members c))).

Definition is_valid_leader (c : t) (member : machine_id_t) : bool :=
  bool_decide (count (voting_members c) member = 1).

End defs.
Arguments t machine_id_t {_ _}.
Arguments mk {machine_id_t _ _} voting_members non_voting_members.
End raft_config_t.

(** ** [raft_complex_config_t] *)

Module raft_complex_config_t.
Section defs.
Context `{Countable machine_id_t}.

Record t : Type := mk {
  config : raft_config_t.t machine_id_t;
  new_config : option (raft_config_t.t machine_id_t)
  }.

Definition is_joint_consensus (c : t) : bool :=
  match new_config c with Some _ => true | None => false end.

Definition get_all_members (c : t) : gset machine_id_t :=
  let members := raft_config_t.get_all_members (config c) in
  match new_config c with
  | Some nc =>
      let members2 := raft_config_t.get_all_members nc in
      insert_range members members2
  | None => members
  end.

(** [if (is_joint_consensus()) ... new_config->...] is the [Some] branch of
    a match on [new_config], here and in the other two methods. *)
Definition is_quorum (c : t) (members : gset machine_id_t) : bool :=
  match new_config c with
  | Some nc =>
      raft_config_t.is_quorum (config c) members
      && raft_config_t.is_quorum nc members
  | None => raft_config_t.is_quorum (config c) members
  end.

Definition is_valid_leader (c : t) (member : machine_id_t) : bool :=
  raft_config_t.is_valid_leader (config c) member
  || match new_config c with
     | Some nc => raft_config_t.is_valid_leader nc member
     | None => false
     end.

(** Both voting sets of a complex configuration exist in memory. *)
Definition voting_sets_fit_in_memory (c : t) : Prop :=
  fits_in_memory (raft_config_t.voting_members (config c))
  /\ forall nc, new_config c = Some nc ->
                fits_in_memory (raft_config_t.voting_members nc).

End defs.
Arguments t machine_id_t {_ _}.
Arguments mk {machine_id_t _ _} config new_config.
End raft_complex_config_t.

(** ** [raft_log_entry_t] *)

Module raft_log_entry_t.

Module type_t.
Inductive t : Type := regular | configuration | noop.
End type_t.

Section defs.
Context `{Countable machine_id_t}.
Variable change_t : Type.

Record t : Type := mk {
  type : type_t.t;
  term : Z;
  change : option change_t;
  configuration : option (raft_complex_config_t.t machine_id_t)
  }.

End defs.
Arguments t machine_id_t {_ _} change_t.
Arguments mk {machine_id_t _ _ change_t} type term change configuration.
Arguments type {machine_id_t _ _ change_t} _.
Arguments term {machine_id_t _ _ change_t} _.
Arguments change {machine_id_t _ _ change_t} _.
Arguments configuration {machine_id_t _ _ change_t} _.
End raft_log_entry_t.

(** ** [std::deque] *)

Section std_deque.
Context {A : Type}.

(** [d[n]] *)
Definition deque_at (d : list A) (n : Z) : result A :=
  match d !! Z.to_nat n with
  | Some x => Ok x
  | None => OutOfBounds
  end.

(** [d.erase(d.begin() + first, d.begin() + last)]; the two iterators must
  delimit a range of [d]. *)
Definition deque_erase (d : list A) (first last : Z) : result (list A) :=
  if (first <=? last) && (last <=? Z.of_nat (length d))
  then Ok (take (Z.to_nat first) d ++ drop (Z.to_nat last) d)
  else OutOfBounds.

(** [d.push_back(x)] *)
Definition deque_push_back (d : list A) (x : A) : list A := d ++ [x].

End std_deque.

(** ** [raft_log_t] *)

Module raft_log_t.
Section defs.
Context `{Countable machine_id_t}.
Variable change_t : Type.

Abbreviation entry := (raft_log_entry_t.t machine_id_t change_t).

Record t : Type := mk {
  prev_index : Z;
  prev_term : Z;
  entries : list entry
  }.

Definition msg_back : string := "the log doesn't go back this far".
Definition msg_forward : string := "the log doesn't go forward this far".

Definition get_latest_index (l : t) : Z :=
  Uint64.add (prev_index l) (Uint64.of_nat (length (entries l))).

Definition get_entry_ref (l : t) (index : Z) : result entry :=
  guarantee (index >? prev_index l) msg_back;;
  guarantee (index <=? get_latest_index l) msg_forward;;
  deque_at (entries l) (Uint64.sub (Uint64.sub index (prev_index l)) 1).

Definition get_entry_term (l : t) (index : Z) : result Z :=
  guarantee (index >=? prev_index l) msg_back;;
  guarantee (index <=? get_latest_index l) msg_forward;;
  if index =? prev_index l then
    mret (prev_term l)
  else
    e ← get_entry_ref l index;
    mret (raft_log_entry_t.term e).

Definition delete_entries_from (l : t) (index : Z) : result t :=
  guarantee (index >? prev_index l) msg_back;;
  guarantee (index <=? get_latest_index l) msg_forward;;
  entries' ← deque_erase (entries l)
               (Uint64.sub (Uint64.sub index (prev_index l)) 1)
               (Z.of_nat (length (entries l)));
  mret {| prev_index := prev_index l;
          prev_term := prev_term l;
          entries := entries' |}.

Definition delete_entries_to (l : t) (index : Z) : result t :=
  guarantee (index >? prev_index l) msg_back;;
  guarantee (index <=? get_latest_index l) msg_forward;;
  index_term ← get_entry_term l index;
  entries' ← deque_erase (entries l) 0 (Uint64.sub index (prev_index l));
  mret {| prev_index := index;
          prev_term := index_term;
          entries := entries' |}.

Definition append (l : t) (entry : entry) : t :=
  {| prev_index := prev_index l;
     prev_term := prev_term l;
     entries := deque_push_back (entries l) entry |}.

(** [prev_index] is a [uint64_t] and the size of the deque a [size_t].
  (Terms are only copied and compared for equality by the methods above:
  their range plays no part.) *)
Definition well_formed (l : t) : Prop :=
  Uint64.in_range (prev_index l)
  /\ Uint64.in_range (Z.of_nat (length (entries l))).

End defs.
Arguments t machine_id_t {_ _} change_t.
Arguments mk {machine_id_t _ _ change_t} prev_index prev_term entries.
Arguments prev_index {machine_id_t _ _ change_t} _.
Arguments prev_term {machine_id_t _ _ change_t} _.
Arguments entries {machine_id_t _ _ change_t} _.
Arguments get_latest_index {machine_id_t _ _ change_t} _.
Arguments get_entry_ref {machine_id_t _ _ change_t} _ _.
Arguments get_entry_term {machine_id_t _ _ change_t} _ _.
Arguments delete_entries_from {machine_id_t _ _ change_t} _ _.
Arguments delete_entries_to {machine_id_t _ _ change_t} _ _.
Arguments append {machine_id_t _ _ change_t} _ _.
Arguments well_formed {machine_id_t _ _ change_t} _.
End raft_log_t.

(** ** Timing constants of [raft_member_t] (all [int32_t]) *)

Module raft_member_t.

Definition election_timeout_min_ms : Z := 1000.
Definition election_timeout_max_ms : Z := 2000.
Definition heartbeat_interval_ms : Z := 500.

End raft_member_t.

(** ** Sample values

    Members are numbered here; a cluster of three voting members and one
    non-voting member moves to a new set of three voting members. *)

Module sample.

Definition old_config : raft_config_t.t N :=
  raft_config_t.mk {[ 1; 2; 3 ]}%N {[ 4 ]}%N.

Definition new_config : raft_config_t.t N :=
  raft_config_t.mk {[ 3; 4; 5 ]}%N ∅.

Definition joint : raft_complex_config_t.t N :=
  raft_complex_config_t.mk old_config (Some new_config).

(** A slice of three entries that follows a snapshot at index 10, and an
    empty slice whose [prev_index] is the largest [uint64_t]. State machine
    changes are numbers. *)

Definition regular (term : Z) (change : nat) : raft_log_entry_t.t N nat :=
  raft_log_entry_t.mk raft_log_entry_t.type_t.regular term (Some change) None.

Definition noop (term : Z) : raft_log_entry_t.t N nat :=
  raft_log_entry_t.mk raft_log_entry_t.type_t.noop term None None.

Definition slice : raft_log_t.t N nat :=
  raft_log_t.mk 10 2 [regular 2 7; noop 3; regular 3 8].

Definition last_slice : raft_log_t.t N nat :=
  raft_log_t.mk Uint64.max 2 [].

(** A slice of three entries after index 2^64 - 2: the indices of its last
    two entries are not [uint64_t] values. *)
Definition wrapped_slice : raft_log_t.t N nat :=
  raft_log_t.mk (Uint64.max - 1) 1 [noop 1; noop 1; noop 1].

End sample.

(** ** The query environment (rdb_protocol/env.cc) *)

Module ql.

Section is_joined.
Context {T : Type} `{EqDecision T}.

(** [semilattice_join(&cpy, divisor)] is declared with each type of
    metadata; here it is a parameter, as a function of the old value of
    [cpy] and of [divisor] to the new value of [cpy]. *)
Variable semilattice_join : T -> T -> T.

Definition is_joined (multiple divisor : T) : bool :=
  let cpy := multiple in
  let cpy := semilattice_join cpy divisor in
  bool_decide (cpy = multiple).

End is_joined.

Module global_optargs_t.
Section defs.

(** The types of the query language and the two things done with a wire
    function are declared in other files; they are parameters.
    - [make_wire_func env val]: the term [FUNC(MAKE_ARRAY(), val)] with the
      backtrace of [val], compiled in an empty scope, evaluated to a
      function and wrapped into a [wire_func_t].
    - [call_wire_func env f]: [f.compile_wire_func(env)->call(env)].
    - [compiles env f]: [f.compile_wire_func(env).has()].
    The model is of the calls that return: an exception of the compiler
    leaves [add_optarg] before the map is assigned. *)
Variables env_t Term wire_func_t val_t : Type.
Variable make_wire_func : env_t -> Term -> wire_func_t.
Variable call_wire_func : env_t -> wire_func_t -> val_t.
Variable compiles : env_t -> wire_func_t -> bool.

(** The only field is [optargs], a [std::map<std::string, wire_func_t>]. *)
Abbreviation t := (gmap string wire_func_t).

(** [optargs.count(key)] *)
Definition map_count (optargs : t) (key : string) : Z :=
  match optargs !! key with Some _ => 1 | None => 0 end.

(** The two constructors. *)
Definition empty : t := ∅.
Definition of_optargs (_optargs : t) : t := _optargs.

(** Returns whether or not there was a key conflict, and the new state. *)
Definition add_optarg (optargs : t) (env : env_t) (key : string) (val : Term)
  : bool * t :=
  if negb (map_count optargs key =? 0) then
    (true, optargs)
  else
    let func := make_wire_func env val in
    (false, <[ key := func ]> optargs).

(** The flag tells whether the method returned ([true]) or was left by a
    failed [r_sanity_check] ([false]); the map is [optargs] at that point. *)
Definition init_optargs (optargs : t) (env : env_t) (_optargs : t)
  : bool * t :=
  if negb (Z.of_nat (size optargs) =? 0) then (false, optargs)
  else
    let optargs := _optargs in
    (forallb (fun kv => compiles env kv.2) (map_to_list optargs), optargs).

(** [None] is the empty [counted_t<val_t>]. ([optargs[key]] is reached with
    the key in the map only.) *)
Definition get_optarg (optargs : t) (env : env_t) (key : string)
  : option val_t :=
  if map_count optargs key =? 0 then None
  else match optargs !! key with
       | Some f => Some (call_wire_func env f)
       | None => None
       end.

Definition get_all_optargs (optargs : t) : t := optargs.

End defs.
Arguments map_count {wire_func_t} optargs key.
Arguments empty {wire_func_t}.
Arguments of_optargs {wire_func_t} _optargs.
Arguments add_optarg {env_t Term wire_func_t} make_wire_func optargs env key val.
Arguments init_optargs {env_t wire_func_t} compiles optargs env _optargs.
Arguments get_optarg {env_t wire_func_t val_t} call_wire_func optargs env key.
Arguments get_all_optargs {wire_func_t} optargs.
End global_optargs_t.

End ql.

(** ** The driver of the web interface (admin/static/coffee/app.coffee) *)

Module Driver.

Section helpers.

(** ReQL terms are built by the driver library: [r.error], [r.branch],
    [r.expr] and the method [eq] are parameters, and so is the text that the
    interpolation makes of a term. *)
Variable term : Type.
Variable r_error : string -> term.
Variable r_branch : term -> term -> term -> term.
Variable r_expr : term -> term.
Variable eq : term -> term -> term.
Variable to_string : term -> string.

(** [helpers.match]; a spec is a pair [[val, action]]. *)
Definition match_ (variable : term) (specs : list (term * term)) : term :=
  let previous := r_error ("nothing matched " +:+ to_string variable) in
  foldl (fun previous spec =>
           let '(val, action) := spec in
           r_branch (eq (r_expr variable) val) action previous)
        previous (reverse specs).

End helpers.
Arguments match_ {term} r_error r_branch r_expr eq to_string variable specs.

Section timers.

(** A timer of [@timers]: [{}] when it is made, with [connection] and
    [timeout] set later. Connections and timeout handles are parameters. *)
Variables connection_t timeout_t : Type.

Record timer_t : Type := mk_timer {
  connection : option connection_t;
  timeout : option timeout_t
}.

(** What [stop_timer] does to the world outside of [@timers]. *)
Inductive effect : Type :=
  | clearTimeout (handle : option timeout_t)
  | close (conn : connection_t).

(** [stop_timer]: the effects in the order of the calls, and the new
    [@timers]. *)
Definition stop_timer (timers : gmap Z timer_t) (timer : Z)
  : list effect * gmap Z timer_t :=
  let effects1 := [clearTimeout (t ← timers !! timer; timeout t)] in
  let effects2 :=
    match t ← timers !! timer; connection t with
    | Some conn => [close conn]
    | None => []
    end in
  (effects1 ++ effects2, delete timer timers).

End timers.
Arguments mk_timer {connection_t timeout_t} connection timeout.
Arguments connection {connection_t timeout_t} _.
Arguments timeout {connection_t timeout_t} _.
Arguments clearTimeout {connection_t timeout_t} handle.
Arguments close {connection_t timeout_t} conn.
Arguments stop_timer {connection_t timeout_t} timers timer.
End Driver.

(** * Properties *)

(** ** Arithmetic modulo 2^64 *)

Lemma wrap_small (z : Z) : Uint64.in_range z -> Uint64.wrap z = z.
Proof.
  unfold Uint64.in_range, Uint64.max, Uint64.wrap. intros Hz.
  apply Z.mod_small. lia.
Qed.

Lemma wrap_in_range (z : Z) : Uint64.in_range (Uint64.wrap z).
Proof.
  unfold Uint64.in_range, Uint64.max, Uint64.wrap.
  assert (0 <= z mod Uint64.modulus < Uint64.modulus)
    by (apply Z.mod_pos_bound; reflexivity).
  lia.
Qed.

Lemma add_wrap_l (a b : Z) : Uint64.add (Uint64.wrap a) b = Uint64.wrap (a + b).
Proof. unfold Uint64.add, Uint64.wrap. apply Zplus_mod_idemp_l. Qed.

Lemma modulus_eq : Uint64.modulus = 18446744073709551616.
Proof. reflexivity. Qed.

(** ** Sets of members *)

Section set_facts.
Context `{Countable machine_id_t}.
Implicit Types (V S T : gset machine_id_t) (m : machine_id_t).

Lemma insert_range_union (dst src : gset machine_id_t) :
  insert_range dst src = dst ∪ src.
Proof.
  unfold insert_range.
  rewrite <- (list_to_set_elements_L src) at 2.
  generalize (elements src) as l. intros l. revert dst.
  induction l as [|m l IH]; intros dst; simpl.
  - set_solver.
  - rewrite IH. set_solver.
Qed.

Lemma count_0_1 V m : count V m = 0 \/ count V m = 1.
Proof. unfold count. destruct (decide (m ∈ V)); auto. Qed.

Lemma count_1_iff V m : count V m = 1 <-> m ∈ V.
Proof. unfold count. destruct (decide (m ∈ V)); split; intros; done. Qed.

(** The loop over a list of candidates counts those that are in [V]. *)
Lemma count_loop V (l : list machine_id_t) (a : Z) :
  foldl (fun votes m => Uint64.add votes (count V m)) (Uint64.wrap a) l
  = Uint64.wrap (a + Z.of_nat (length (filter (.∈ V) l))).
Proof.
  revert a. induction l as [|m l IH]; intros a; simpl.
  - f_equal. lia.
  - rewrite add_wrap_l, IH. f_equal.
    rewrite filter_cons. unfold count.
    destruct (decide (m ∈ V)); simpl; lia.
Qed.

Lemma elements_inter_filter S V :
  elements (S ∩ V) ≡ₚ filter (.∈ V) (elements S).
Proof.
  apply NoDup_Permutation.
  - apply NoDup_elements.
  - apply NoDup_filter, NoDup_elements.
  - intros m. rewrite elem_of_elements, list_elem_of_filter, elem_of_elements.
    set_solver.
Qed.

Lemma size_inter_le S V : (size (S ∩ V) <= size V)%nat.
Proof. apply subseteq_size. set_solver. Qed.

(** Two strict majorities of the same set meet inside it. *)
Lemma strict_majority_meet V S T :
  strict_majority V S -> strict_majority V T ->
  exists m, m ∈ S /\ m ∈ T /\ m ∈ V.
Proof.
  unfold strict_majority. intros HS HT.
  destruct (set_choose_or_empty ((S ∩ V) ∩ (T ∩ V))) as [[m Hm]|Hempty].
  - exists m. set_solver.
  - assert (Hdisj : (S ∩ V) ## (T ∩ V)) by set_solver.
    pose proof (size_union _ _ Hdisj) as Hsum.
    assert (Hle : (size ((S ∩ V) ∪ (T ∩ V)) <= size V)%nat)
      by (apply subseteq_size; set_solver).
    lia.
Qed.

End set_facts.

(** ** Configurations *)

Section config_facts.
Context `{Countable machine_id_t}.
Implicit Types (c : raft_config_t.t machine_id_t)
               (cc : raft_complex_config_t.t machine_id_t)
               (S T : gset machine_id_t) (m : machine_id_t).

Import raft_config_t.

Lemma is_joint_consensus_Some cc :
  raft_complex_config_t.is_joint_consensus cc = true <->
  exists nc, raft_complex_config_t.new_config cc = Some nc.
Proof.
  unfold raft_complex_config_t.is_joint_consensus.
  destruct (raft_complex_config_t.new_config cc) as [nc|]; split.
  - intros _. exists nc. reflexivity.
  - reflexivity.
  - discriminate.
  - intros [nc [=]].
Qed.

Lemma count_votes_size c S :
  count_votes c S = Uint64.wrap (Z.of_nat (size (S ∩ voting_members c))).
Proof.
  unfold count_votes.
  change 0 with (Uint64.wrap 0). rewrite count_loop, Z.add_0_l.
  unfold size, set_size; simpl.
  rewrite (Permutation_length (elements_inter_filter S (voting_members c))).
  reflexivity.
Qed.

Lemma is_quorum_majority c S :
  fits_in_memory (voting_members c) ->
  is_quorum c S = true <-> strict_majority (voting_members c) S.
Proof.
  unfold fits_in_memory, sizeof_machine_id_t, strict_majority, is_quorum.
  intros Hfit. rewrite count_votes_size.
  pose proof (size_inter_le S (voting_members c)) as Hle.
  pose proof modulus_eq as Hmod.
  unfold Uint64.max in Hfit.
  unfold Uint64.mul, Uint64.of_nat.
  rewrite (wrap_small (Z.of_nat (size (S ∩ voting_members c))))
    by (unfold Uint64.in_range, Uint64.max; lia).
  rewrite (wrap_small (Z.of_nat (size (voting_members c))))
    by (unfold Uint64.in_range, Uint64.max; lia).
  rewrite wrap_small by (unfold Uint64.in_range, Uint64.max; lia).
  rewrite bool_decide_eq_true. lia.
Qed.

Lemma count_votes_drop_strangers c S (N : gset machine_id_t) :
  N ## voting_members c -> count_votes c (S ∪ N) = count_votes c S.
Proof.
  intros Hdisj. rewrite !count_votes_size.
  replace ((S ∪ N) ∩ voting_members c) with (S ∩ voting_members c)
    by set_solver.
  reflexivity.
Qed.

Lemma get_all_members_union c :
  get_all_members c = voting_members c ∪ non_voting_members c.
Proof.
  unfold get_all_members. rewrite !insert_range_union. set_solver.
Qed.

Lemma is_valid_leader_voting c m :
  is_valid_leader c m = true <-> m ∈ voting_members c.
Proof.
  unfold is_valid_leader. rewrite bool_decide_eq_true. apply count_1_iff.
Qed.

(** C1. [is_quorum] answers true exactly when strictly more than half of the
    voting set is in the given set of members, for a joint consensus exactly
    when this holds for the old and for the new voting set; members
    outside the voting set (the non-voting members among them) add nothing
    to the count of votes, and so do not change the answer. *)
Theorem is_quorum_iff_strict_majority c cc S :
  fits_in_memory (voting_members c) ->
  raft_complex_config_t.voting_sets_fit_in_memory cc ->
  (is_quorum c S = true <-> strict_majority (voting_members c) S)
  /\ (raft_complex_config_t.is_quorum cc S = true <->
        strict_majority
          (voting_members (raft_complex_config_t.config cc)) S
        /\ forall nc, raft_complex_config_t.new_config cc = Some nc ->
                      strict_majority (voting_members nc) S)
  /\ (forall N : gset machine_id_t, N ## voting_members c ->
        count_votes c (S ∪ N) = count_votes c S
        /\ is_quorum c (S ∪ N) = is_quorum c S).
Proof.
  intros Hc [Hold Hnew]. split; [|split].
  - apply is_quorum_majority, Hc.
  - unfold raft_complex_config_t.is_quorum.
    destruct (raft_complex_config_t.new_config cc) as [nc|] eqn:Hnc.
    + rewrite andb_true_iff, (is_quorum_majority _ S Hold),
        (is_quorum_majority nc S (Hnew nc eq_refl)).
      split.
      * intros [H1 H2]. split; [exact H1|]. intros nc' [= <-]. exact H2.
      * intros [H1 H2]. split; [exact H1|]. apply H2. reflexivity.
    + rewrite (is_quorum_majority _ S Hold). split.
      * intros H1. split; [exact H1|]. intros nc' [=].
      * intros [H1 _]. exact H1.
  - intros N HN. pose proof (count_votes_drop_strangers c S N HN) as Hv.
    split; [exact Hv|]. unfold is_quorum. rewrite Hv. reflexivity.
Qed.

(** C2. A member is a valid leader of a configuration exactly when it is in
    the voting set; it is a valid leader of a complex configuration exactly
    when it is one of the old configuration or, in a joint consensus, of the
    new one. *)
Theorem is_valid_leader_iff c cc m :
  (is_valid_leader c m = true <-> m ∈ voting_members c)
  /\ (raft_complex_config_t.is_valid_leader cc m = true <->
        is_valid_leader (raft_complex_config_t.config cc) m = true
        \/ exists nc, raft_complex_config_t.new_config cc = Some nc
                      /\ is_valid_leader nc m = true).
Proof.
  split; [apply is_valid_leader_voting|].
  unfold raft_complex_config_t.is_valid_leader.
  rewrite orb_true_iff.
  destruct (raft_complex_config_t.new_config cc) as [nc|].
  - split; (intros [Hl|Hr]; [left; exact Hl|right]).
    + exists nc. split; [reflexivity|exact Hr].
    + destruct Hr as (nc' & [= <-] & Hr). exact Hr.
  - split; (intros [Hl|Hr]; [left; exact Hl|]).
    + discriminate.
    + destruct Hr as (nc' & [=] & _).
Qed.

(** C7. [get_all_members] is the union of the voting and the non-voting
    members; for a complex configuration it is the members of the old
    configuration, joined in a joint consensus with those of the new one. *)
Theorem get_all_members_is_union c cc :
  get_all_members c = voting_members c ∪ non_voting_members c
  /\ (forall nc, raft_complex_config_t.new_config cc = Some nc ->
        raft_complex_config_t.get_all_members cc
        = get_all_members (raft_complex_config_t.config cc)
          ∪ get_all_members nc)
  /\ (raft_complex_config_t.new_config cc = None ->
        raft_complex_config_t.get_all_members cc
        = get_all_members (raft_complex_config_t.config cc)).
Proof.
  split; [apply get_all_members_union|].
  unfold raft_complex_config_t.get_all_members.
  split.
  - intros nc ->. apply insert_range_union.
  - intros ->. reflexivity.
Qed.

(** C9. Two quorums of one configuration share a voting member of it, two
    quorums of a complex configuration a voting member of its old
    configuration; with an empty voting set nothing is a quorum. *)
Theorem quorum_overlap c cc S T :
  fits_in_memory (voting_members c) ->
  fits_in_memory (voting_members (raft_complex_config_t.config cc)) ->
  (is_quorum c S = true -> is_quorum c T = true ->
     exists m, m ∈ S /\ m ∈ T /\ m ∈ voting_members c)
  /\ (raft_complex_config_t.is_quorum cc S = true ->
      raft_complex_config_t.is_quorum cc T = true ->
      exists m, m ∈ S /\ m ∈ T
                /\ m ∈ voting_members (raft_complex_config_t.config cc))
  /\ (voting_members c = ∅ -> is_quorum c S = false)
  /\ (voting_members (raft_complex_config_t.config cc) = ∅ ->
      raft_complex_config_t.is_quorum cc S = false).
Proof.
  intros Hc Hold.
  assert (Hold_quorum : forall U, raft_complex_config_t.is_quorum cc U = true ->
            is_quorum (raft_complex_config_t.config cc) U = true).
  { intros U. unfold raft_complex_config_t.is_quorum.
    destruct (raft_complex_config_t.new_config cc); [|tauto].
    rewrite andb_true_iff. tauto. }
  assert (Hempty : forall c', fits_in_memory (voting_members c') ->
            voting_members c' = ∅ -> is_quorum c' S = false).
  { intros c' Hfit Hnil. apply not_true_is_false.
    rewrite (is_quorum_majority c' S Hfit). unfold strict_majority.
    rewrite Hnil. replace (S ∩ ∅) with (∅ : gset machine_id_t) by set_solver.
    rewrite size_empty. lia. }
  split; [|split; [|split]].
  - rewrite !(is_quorum_majority c _ Hc). apply strict_majority_meet.
  - intros HS%Hold_quorum HT%Hold_quorum. revert HS HT.
    rewrite !(is_quorum_majority _ _ Hold). apply strict_majority_meet.
  - apply Hempty, Hc.
  - intros Hnil. apply not_true_is_false. intros HS%Hold_quorum.
    rewrite (Hempty _ Hold Hnil) in HS. discriminate.
Qed.

End config_facts.

(** C8. The election timeout lies between 1000 ms and 2000 ms, a heartbeat is
    sent every 500 ms, which is less than the shortest election timeout. *)
Theorem timing_constants :
  raft_member_t.election_timeout_min_ms = 1000
  /\ raft_member_t.election_timeout_max_ms = 2000
  /\ raft_member_t.heartbeat_interval_ms = 500
  /\ raft_member_t.heartbeat_interval_ms
     < raft_member_t.election_timeout_min_ms.
Proof.
  unfold raft_member_t.election_timeout_min_ms,
    raft_member_t.election_timeout_max_ms,
    raft_member_t.heartbeat_interval_ms.
  repeat split; lia.
Qed.

(** ** Log slices *)

Ltac uint64_arith :=
  unfold Uint64.add, Uint64.sub, Uint64.of_nat, Uint64.wrap, Uint64.in_range,
    Uint64.max in *;
  change Uint64.modulus with 18446744073709551616 in *;
  Z.to_euclidean_division_equations; lia.

Section log_facts.
Context `{Countable machine_id_t} {change_t : Type}.
Implicit Types (l : raft_log_t.t machine_id_t change_t)
               (e : raft_log_entry_t.t machine_id_t change_t)
               (i j : Z).

Import raft_log_t.

(** An index past [prev_index] and up to the latest index is an index of the
    deque: the sum in [get_latest_index] did not wrap, and neither do the
    subtractions that turn the index into an offset. *)
Lemma window_arith l i :
  well_formed l -> prev_index l < i <= get_latest_index l ->
  get_latest_index l = prev_index l + Z.of_nat (length (entries l))
  /\ Uint64.sub i (prev_index l) = i - prev_index l
  /\ Uint64.sub (Uint64.sub i (prev_index l)) 1 = i - prev_index l - 1
  /\ 0 <= i - prev_index l - 1 < Z.of_nat (length (entries l)).
Proof.
  unfold well_formed, get_latest_index. intros (Hp & Hn) Hi.
  repeat split; uint64_arith.
Qed.

Lemma get_latest_index_in_range l : Uint64.in_range (get_latest_index l).
Proof. apply wrap_in_range. Qed.

Lemma guarantee_true {A} (msg : string) (k : result A) :
  (guarantee true msg;; k) = k.
Proof. reflexivity. Qed.

Lemma guarantee_false {A} (msg : string) (k : result A) :
  (guarantee false msg;; k) = GuaranteeFailed msg.
Proof. reflexivity. Qed.

Lemma deque_at_Ok {A} (d : list A) (n : Z) (x : A) :
  deque_at d n = Ok x <-> d !! Z.to_nat n = Some x.
Proof.
  unfold deque_at. destruct (d !! Z.to_nat n); split; congruence.
Qed.

(** [get_entry_ref] returns an entry exactly at the indices of the deque. *)
Lemma get_entry_ref_Ok l i e :
  well_formed l ->
  get_entry_ref l i = Ok e <->
  prev_index l < i <= get_latest_index l
  /\ entries l !! Z.to_nat (i - prev_index l - 1) = Some e.
Proof.
  intros Hwf. unfold get_entry_ref.
  destruct (Z.gtb_spec i (prev_index l)) as [Hgt|Hle];
    [rewrite guarantee_true|rewrite guarantee_false; split; [discriminate|lia]].
  destruct (Z.leb_spec i (get_latest_index l)) as [Hle|Hgt'];
    [rewrite guarantee_true|rewrite guarantee_false; split; [discriminate|lia]].
  destruct (window_arith l i Hwf (conj Hgt Hle)) as (_ & _ & -> & _).
  rewrite deque_at_Ok. tauto.
Qed.

Lemma get_entry_ref_defined l i :
  well_formed l -> prev_index l < i <= get_latest_index l ->
  exists e, entries l !! Z.to_nat (i - prev_index l - 1) = Some e
            /\ get_entry_ref l i = Ok e.
Proof.
  intros Hwf Hi.
  destruct (window_arith l i Hwf Hi) as (_ & _ & _ & Hoff).
  destruct (lookup_lt_is_Some_2 (entries l) (Z.to_nat (i - prev_index l - 1)))
    as [e He]; [lia|].
  exists e. split; [exact He|]. apply get_entry_ref_Ok; auto.
Qed.

Lemma get_entry_term_prev l i :
  i = prev_index l -> i <= get_latest_index l ->
  get_entry_term l i = Ok (prev_term l).
Proof.
  intros -> Hle. unfold get_entry_term.
  rewrite (proj2 (Z.geb_le _ _)), guarantee_true by lia.
  rewrite (proj2 (Z.leb_le _ _)), guarantee_true by lia.
  rewrite Z.eqb_refl. reflexivity.
Qed.

Lemma get_entry_term_entry l i e :
  prev_index l < i <= get_latest_index l ->
  get_entry_ref l i = Ok e ->
  get_entry_term l i = Ok (raft_log_entry_t.term e).
Proof.
  intros Hi He. unfold get_entry_term.
  rewrite (proj2 (Z.geb_le _ _)), guarantee_true by lia.
  rewrite (proj2 (Z.leb_le _ _)), guarantee_true by lia.
  rewrite (proj2 (Z.eqb_neq _ _)) by lia.
  rewrite He. reflexivity.
Qed.

(** C5. Between [prev_index] and the latest index [get_entry_term] returns:
    no [guarantee] stops it and the access to the deque is in range. At
    [prev_index] the result is [prev_term], elsewhere the term of the entry
    stored at the index. *)
Theorem get_entry_term_defined l i :
  well_formed l ->
  prev_index l <= i <= get_latest_index l ->
  (i = prev_index l -> get_entry_term l i = Ok (prev_term l))
  /\ (i <> prev_index l ->
      exists e, entries l !! Z.to_nat (i - prev_index l - 1) = Some e
                /\ get_entry_ref l i = Ok e
                /\ get_entry_term l i = Ok (raft_log_entry_t.term e)).
Proof.
  intros Hwf Hi. split.
  - intros Heq. apply get_entry_term_prev; [exact Heq|lia].
  - intros Hne.
    destruct (get_entry_ref_defined l i Hwf) as (e & Hlook & Href); [lia|].
    exists e. repeat split; auto.
    apply get_entry_term_entry; [lia|exact Href].
Qed.

(** C6, with the wrap of the [uint64_t] addition. [get_latest_index] is
    [prev_index] plus the number of entries when that sum is below 2^64, and
    that sum less 2^64 when it is not; for a slice without entries it is
    [prev_index]. *)
Theorem get_latest_index_sum l :
  well_formed l ->
  (prev_index l + Z.of_nat (length (entries l)) < 2 ^ 64 ->
     get_latest_index l = prev_index l + Z.of_nat (length (entries l)))
  /\ (2 ^ 64 <= prev_index l + Z.of_nat (length (entries l)) ->
      get_latest_index l
      = prev_index l + Z.of_nat (length (entries l)) - 2 ^ 64)
  /\ (entries l = [] -> get_latest_index l = prev_index l).
Proof.
  unfold well_formed, get_latest_index. intros (Hp & Hn).
  split; [|split].
  - intros Hsum. uint64_arith.
  - intros Hsum. uint64_arith.
  - intros ->. simpl. uint64_arith.
Qed.

Lemma delete_entries_to_Ok l i e :
  well_formed l -> prev_index l < i <= get_latest_index l ->
  get_entry_ref l i = Ok e ->
  delete_entries_to l i
  = Ok {| prev_index := i;
          prev_term := raft_log_entry_t.term e;
          entries := drop (Z.to_nat (i - prev_index l)) (entries l) |}.
Proof.
  intros Hwf Hi He. unfold delete_entries_to.
  rewrite (proj2 (Z.gtb_lt _ _)), guarantee_true by lia.
  rewrite (proj2 (Z.leb_le _ _)), guarantee_true by lia.
  rewrite (get_entry_term_entry l i e Hi He).
  destruct (window_arith l i Hwf Hi) as (_ & -> & _ & Hoff).
  unfold deque_erase.
  rewrite (proj2 (Z.leb_le 0 _)), (proj2 (Z.leb_le (i - prev_index l) _))
    by lia.
  reflexivity.
Qed.

Lemma delete_entries_from_Ok l i :
  well_formed l -> prev_index l < i <= get_latest_index l ->
  delete_entries_from l i
  = Ok {| prev_index := prev_index l;
          prev_term := prev_term l;
          entries := take (Z.to_nat (i - prev_index l - 1)) (entries l) |}.
Proof.
  intros Hwf Hi. unfold delete_entries_from.
  rewrite (proj2 (Z.gtb_lt _ _)), guarantee_true by lia.
  rewrite (proj2 (Z.leb_le _ _)), guarantee_true by lia.
  destruct (window_arith l i Hwf Hi) as (_ & _ & -> & Hoff).
  unfold deque_erase.
  rewrite (proj2 (Z.leb_le (i - prev_index l - 1) _)), Z.leb_refl by lia.
  simpl. rewrite Nat2Z.id, drop_all, app_nil_r. reflexivity.
Qed.

(** C3. [delete_entries_to] at an index [i] of the deque moves [prev_index]
    to [i] and [prev_term] to the term the slice had at [i], that is the
    term of the entry stored at offset [i - prev_index - 1] of the deque,
    which is also what [get_entry_term] returned there; the entries that
    remain are those past [i], each at its index, and the latest index and
    the terms from [i] on are as before. *)
Theorem delete_entries_to_spec l i :
  well_formed l ->
  prev_index l < i <= get_latest_index l ->
  exists l',
    delete_entries_to l i = Ok l'
    /\ prev_index l' = i
    /\ (exists e, entries l !! Z.to_nat (i - prev_index l - 1) = Some e
                  /\ prev_term l' = raft_log_entry_t.term e)
    /\ get_entry_term l i = Ok (prev_term l')
    /\ get_latest_index l' = get_latest_index l
    /\ entries l' = drop (Z.to_nat (i - prev_index l)) (entries l)
    /\ (forall j e, get_entry_ref l' j = Ok e <->
                    i < j /\ get_entry_ref l j = Ok e)
    /\ (forall j, i <= j <= get_latest_index l ->
                  get_entry_term l' j = get_entry_term l j).
Proof.
  intros Hwf Hi.
  destruct (get_entry_ref_defined l i Hwf Hi) as (e & Hstored & He).
  destruct (window_arith l i Hwf Hi) as (Hlatest & _ & _ & Hoff).
  pose proof Hwf as (Hp & Hn).
  pose proof (get_latest_index_in_range l) as Hrange.
  set (l' := {| prev_index := i;
                prev_term := raft_log_entry_t.term e;
                entries := drop (Z.to_nat (i - prev_index l)) (entries l) |}).
  assert (Hlen : Z.of_nat (length (entries l'))
                 = Z.of_nat (length (entries l)) - (i - prev_index l)).
  { simpl. rewrite length_drop. lia. }
  assert (Hwf' : well_formed l').
  { unfold well_formed. rewrite Hlen. simpl. unfold Uint64.in_range in *.
    repeat split; lia. }
  assert (Hlatest' : get_latest_index l' = get_latest_index l).
  { unfold get_latest_index at 1, Uint64.of_nat.
    rewrite Hlen, Hlatest. simpl. uint64_arith. }
  assert (Hrefs : forall j e', get_entry_ref l' j = Ok e' <->
                    i < j /\ get_entry_ref l j = Ok e').
  { intros j e'. rewrite (get_entry_ref_Ok l' j e' Hwf'),
      (get_entry_ref_Ok l j e' Hwf), Hlatest'. simpl.
    rewrite lookup_drop.
    split.
    - intros [Hj Hlook].
      replace (Z.to_nat (i - prev_index l) + Z.to_nat (j - i - 1))%nat
        with (Z.to_nat (j - prev_index l - 1)) in Hlook by lia.
      repeat split; auto; lia.
    - intros (Hij & Hj & Hlook).
      replace (Z.to_nat (i - prev_index l) + Z.to_nat (j - i - 1))%nat
        with (Z.to_nat (j - prev_index l - 1)) by lia.
      repeat split; auto; lia. }
  exists l'. split; [apply delete_entries_to_Ok; auto|].
  split; [reflexivity|].
  split; [exists e; split; [exact Hstored|reflexivity]|].
  split; [apply get_entry_term_entry; auto|].
  split; [exact Hlatest'|].
  split; [reflexivity|].
  split; [exact Hrefs|].
  intros j Hj. destruct (Z.eq_dec j i) as [->|Hne].
  - rewrite (get_entry_term_prev l' i) by (simpl; lia).
    rewrite (get_entry_term_entry l i e Hi He). reflexivity.
  - destruct (get_entry_ref_defined l j Hwf) as (e' & _ & He'); [lia|].
    rewrite (get_entry_term_entry l j e') by (auto; lia).
    apply get_entry_term_entry; [simpl; lia|].
    apply Hrefs. split; [lia|exact He'].
Qed.

(** C4. [delete_entries_from] at an index [i] of the deque leaves
    [prev_index] and [prev_term] alone and makes [i - 1] the latest index;
    the entries that remain are those before [i], each at its index. *)
Theorem delete_entries_from_spec l i :
  well_formed l ->
  prev_index l < i <= get_latest_index l ->
  exists l',
    delete_entries_from l i = Ok l'
    /\ get_latest_index l' = i - 1
    /\ prev_index l' = prev_index l
    /\ prev_term l' = prev_term l
    /\ entries l' = take (Z.to_nat (i - prev_index l - 1)) (entries l)
    /\ (forall j e, get_entry_ref l' j = Ok e <->
                    j < i /\ get_entry_ref l j = Ok e).
Proof.
  intros Hwf Hi.
  destruct (window_arith l i Hwf Hi) as (Hlatest & _ & _ & Hoff).
  pose proof Hwf as (Hp & Hn).
  pose proof (get_latest_index_in_range l) as Hrange.
  set (l' := {| prev_index := prev_index l;
                prev_term := prev_term l;
                entries := take (Z.to_nat (i - prev_index l - 1))
                                (entries l) |}).
  assert (Hlen : Z.of_nat (length (entries l')) = i - prev_index l - 1).
  { simpl. rewrite length_take. lia. }
  assert (Hwf' : well_formed l').
  { unfold well_formed. rewrite Hlen. simpl. unfold Uint64.in_range in *.
    repeat split; lia. }
  assert (Hlatest' : get_latest_index l' = i - 1).
  { unfold get_latest_index, Uint64.of_nat. rewrite Hlen. simpl.
    uint64_arith. }
  exists l'. split; [apply delete_entries_from_Ok; auto|].
  repeat (split; [done|]).
  intros j e. rewrite (get_entry_ref_Ok l' j e Hwf'),
    (get_entry_ref_Ok l j e Hwf), Hlatest'. simpl.
  rewrite lookup_take_Some. split.
  - intros (Hj & Hlook & _). repeat split; auto; lia.
  - intros (Hji & Hj & Hlook). repeat split; auto; lia.
Qed.

(** C10, for a slice with room for one more index. When the index after the
    latest one is still a [uint64_t], appending an entry raises the latest index by one, the term at the new
    latest index is the term of the entry, and [delete_entries_from] at that
    index gives the slice back. *)
Theorem append_then_delete_entries_from l e :
  well_formed l ->
  prev_index l + Z.of_nat (length (entries l)) < Uint64.max ->
  delete_entries_from (append l e) (get_latest_index l + 1) = Ok l
  /\ get_latest_index (append l e) = get_latest_index l + 1
  /\ get_entry_term (append l e) (get_latest_index (append l e))
     = Ok (raft_log_entry_t.term e).
Proof.
  intros Hwf Hroom. pose proof Hwf as (Hp & Hn).
  assert (Hlen : Z.of_nat (length (entries (append l e)))
                 = Z.of_nat (length (entries l)) + 1).
  { simpl. unfold deque_push_back. rewrite length_app. simpl. lia. }
  assert (Hlatest : get_latest_index l
                    = prev_index l + Z.of_nat (length (entries l))).
  { unfold get_latest_index. uint64_arith. }
  assert (Hlatest' : get_latest_index (append l e) = get_latest_index l + 1).
  { rewrite Hlatest. unfold get_latest_index, Uint64.of_nat.
    rewrite Hlen. simpl. uint64_arith. }
  assert (Hwf' : well_formed (append l e)).
  { unfold well_formed. rewrite Hlen. simpl. unfold Uint64.in_range in *.
    repeat split; lia. }
  assert (Hlast : entries (append l e)
                    !! Z.to_nat (get_latest_index l + 1 - prev_index l - 1)
                  = Some e).
  { simpl. unfold deque_push_back.
    replace (Z.to_nat (get_latest_index l + 1 - prev_index l - 1))
      with (length (entries l) + 0)%nat by lia.
    rewrite lookup_app_r by lia.
    replace (length (entries l) + 0 - length (entries l))%nat with 0%nat
      by lia.
    reflexivity. }
  split; [|split].
  - rewrite delete_entries_from_Ok by (auto; simpl; lia). simpl.
    unfold deque_push_back.
    replace (Z.to_nat (get_latest_index l + 1 - prev_index l - 1))
      with (length (entries l)) by lia.
    rewrite take_app_length. destruct l; reflexivity.
  - exact Hlatest'.
  - rewrite Hlatest'.
    apply get_entry_term_entry; [simpl; lia|].
    apply get_entry_ref_Ok; [exact Hwf'|].
    split; [simpl; lia|exact Hlast].
Qed.

End log_facts.

(** ** The methods on the sample values *)

Example is_joint_consensus_joint :
  raft_complex_config_t.is_joint_consensus sample.joint = true.
Proof. reflexivity. Qed.

Example two_of_three_is_quorum :
  raft_config_t.is_quorum sample.old_config {[ 1; 2 ]}%N = true.
Proof. vm_compute. reflexivity. Qed.

Example non_voting_member_has_no_vote :
  raft_config_t.is_quorum sample.old_config {[ 1; 4 ]}%N = false.
Proof. vm_compute. reflexivity. Qed.

Example joint_quorum_needs_both_sides :
  raft_complex_config_t.is_quorum sample.joint {[ 1; 2 ]}%N = false
  /\ raft_complex_config_t.is_quorum sample.joint {[ 2; 3; 4 ]}%N = true.
Proof. split; vm_compute; reflexivity. Qed.

Example joint_leaders :
  raft_complex_config_t.is_valid_leader sample.joint 1%N = true
  /\ raft_complex_config_t.is_valid_leader sample.joint 5%N = true
  /\ raft_complex_config_t.is_valid_leader sample.joint 6%N = false
  /\ raft_config_t.is_valid_leader sample.old_config 4%N = false.
Proof. repeat split; vm_compute; reflexivity. Qed.

Example joint_members :
  raft_complex_config_t.get_all_members sample.joint
  = {[ 1; 2; 3; 4; 5 ]}%N.
Proof. vm_compute. reflexivity. Qed.

Example slice_latest_index : raft_log_t.get_latest_index sample.slice = 13.
Proof. reflexivity. Qed.

Example slice_terms :
  raft_log_t.get_entry_term sample.slice 10 = Ok 2
  /\ raft_log_t.get_entry_term sample.slice 12 = Ok 3
  /\ raft_log_t.get_entry_term sample.slice 9
     = GuaranteeFailed raft_log_t.msg_back
  /\ raft_log_t.get_entry_term sample.slice 14
     = GuaranteeFailed raft_log_t.msg_forward
  /\ raft_log_t.get_entry_ref sample.slice 10
     = GuaranteeFailed raft_log_t.msg_back.
Proof. repeat split; vm_compute; reflexivity. Qed.

Example slice_delete_entries_to :
  raft_log_t.delete_entries_to sample.slice 12
  = Ok (raft_log_t.mk 12 3 [sample.regular 3 8]).
Proof. vm_compute. reflexivity. Qed.

Example slice_delete_entries_from :
  raft_log_t.delete_entries_from sample.slice 12
  = Ok (raft_log_t.mk 10 2 [sample.regular 2 7]).
Proof. vm_compute. reflexivity. Qed.

(** ** The configuration theorems on the sample cluster *)

Lemma sample_fits :
  fits_in_memory (raft_config_t.voting_members sample.old_config)
  /\ raft_complex_config_t.voting_sets_fit_in_memory sample.joint.
Proof.
  split; [|split; [|intros nc [= <-]]]; vm_compute; discriminate.
Qed.

Lemma is_quorum_iff_strict_majority_witness :
  (raft_config_t.is_quorum sample.old_config {[ 1; 2; 4 ]}%N = true <->
     strict_majority
       (raft_config_t.voting_members sample.old_config) {[ 1; 2; 4 ]}%N)
  /\ (raft_complex_config_t.is_quorum sample.joint {[ 1; 2; 4 ]}%N = true <->
       strict_majority
         (raft_config_t.voting_members
            (raft_complex_config_t.config sample.joint)) {[ 1; 2; 4 ]}%N
       /\ forall nc, raft_complex_config_t.new_config sample.joint = Some nc ->
            strict_majority (raft_config_t.voting_members nc) {[ 1; 2; 4 ]}%N).
Proof.
  destruct sample_fits as [Hold Hjoint].
  destruct (is_quorum_iff_strict_majority
              sample.old_config sample.joint {[ 1; 2; 4 ]}%N Hold Hjoint)
    as (Hsimple & Hcomplex & _).
  exact (conj Hsimple Hcomplex).
Defined.

Lemma quorum_overlap_witness :
  exists m : N,
    m ∈ ({[ 1; 2 ]}%N : gset N) /\ m ∈ ({[ 2; 3; 4 ]}%N : gset N)
    /\ m ∈ raft_config_t.voting_members sample.old_config.
Proof.
  destruct sample_fits as [Hold _].
  destruct (quorum_overlap sample.old_config sample.joint
              {[ 1; 2 ]}%N {[ 2; 3; 4 ]}%N Hold Hold) as (Hsimple & _).
  apply Hsimple; vm_compute; reflexivity.
Defined.

(** ** The log theorems on the sample slices *)

Ltac by_evaluation := vm_compute; intuition congruence.

Lemma sample_slice_well_formed : raft_log_t.well_formed sample.slice.
Proof. by_evaluation. Qed.

Lemma delete_entries_to_spec_witness :
  exists l',
    raft_log_t.delete_entries_to sample.slice 12 = Ok l'
    /\ raft_log_t.prev_index l' = 12
    /\ raft_log_t.prev_term l' = 3
    /\ raft_log_t.get_entry_term sample.slice 12
       = Ok (raft_log_t.prev_term l')
    /\ raft_log_t.get_latest_index l' = 13.
Proof.
  destruct (delete_entries_to_spec sample.slice 12) as
    (l' & Hdel & Hprev & (e & Hlook & Hstored) & Hterm & Hlatest & _).
  - exact sample_slice_well_formed.
  - by_evaluation.
  - exists l'. injection Hlook as <-.
    repeat split; assumption.
Defined.

Lemma delete_entries_from_spec_witness :
  exists l',
    raft_log_t.delete_entries_from sample.slice 12 = Ok l'
    /\ raft_log_t.get_latest_index l' = 11
    /\ raft_log_t.prev_index l' = 10
    /\ raft_log_t.prev_term l' = 2.
Proof.
  destruct (delete_entries_from_spec sample.slice 12) as
    (l' & Hdel & Hlatest & Hprev & Hterm & _).
  - exact sample_slice_well_formed.
  - by_evaluation.
  - exists l'. repeat split; assumption.
Defined.

Lemma get_entry_term_defined_witness :
  raft_log_t.get_entry_term sample.slice 10 = Ok 2
  /\ exists e, raft_log_t.get_entry_ref sample.slice 12 = Ok e
               /\ raft_log_t.get_entry_term sample.slice 12
                  = Ok (raft_log_entry_t.term e).
Proof.
  split.
  - apply (get_entry_term_defined sample.slice 10);
      [exact sample_slice_well_formed|by_evaluation|reflexivity].
  - destruct (get_entry_term_defined sample.slice 12) as [_ Hentry];
      [exact sample_slice_well_formed|by_evaluation|].
    destruct Hentry as (e & _ & Href & Hterm); [discriminate|].
    exists e. split; assumption.
Defined.

Lemma get_latest_index_sum_witness :
  raft_log_t.get_latest_index sample.slice = 10 + 3
  /\ raft_log_t.get_latest_index sample.last_slice = Uint64.max.
Proof.
  split.
  - destruct (get_latest_index_sum sample.slice sample_slice_well_formed)
      as (Hsum & _ & _).
    apply Hsum. reflexivity.
  - destruct (get_latest_index_sum sample.last_slice) as (_ & _ & Hnil).
    + by_evaluation.
    + apply Hnil. reflexivity.
Defined.

(** C6 as stated fails on a well-formed slice of three entries after index
    2^64 - 2: [prev_index] plus the number of entries is 2^64 + 1, and
    [get_latest_index] returns 1. *)
Lemma get_latest_index_wraps :
  raft_log_t.well_formed sample.wrapped_slice
  /\ raft_log_t.prev_index sample.wrapped_slice = 2 ^ 64 - 2
  /\ length (raft_log_t.entries sample.wrapped_slice) = 3%nat
  /\ raft_log_t.prev_index sample.wrapped_slice
     + Z.of_nat (length (raft_log_t.entries sample.wrapped_slice))
     = 2 ^ 64 + 1
  /\ raft_log_t.get_latest_index sample.wrapped_slice = 1.
Proof.
  split; [by_evaluation|].
  repeat split; vm_compute; reflexivity.
Qed.

Lemma append_then_delete_entries_from_witness :
  raft_log_t.delete_entries_from
    (raft_log_t.append sample.slice (sample.noop 4)) 14 = Ok sample.slice
  /\ raft_log_t.get_latest_index
       (raft_log_t.append sample.slice (sample.noop 4)) = 14
  /\ raft_log_t.get_entry_term
       (raft_log_t.append sample.slice (sample.noop 4)) 14 = Ok 4.
Proof.
  destruct (append_then_delete_entries_from sample.slice (sample.noop 4))
    as (Hround & Hlatest & Hterm).
  - exact sample_slice_well_formed.
  - reflexivity.
  - rewrite Hlatest in Hterm. exact (conj Hround (conj Hlatest Hterm)).
Defined.

(** C10 as stated fails on a slice that ends at the largest index: the index
    after it wraps around to 0, which is before the slice, so that both
    [delete_entries_from] and [get_entry_term] stop on their first
    [guarantee]; and no index at all makes [delete_entries_from] give the
    slice back. *)
Lemma append_at_largest_index :
  raft_log_t.well_formed sample.last_slice
  /\ raft_log_t.get_latest_index
       (raft_log_t.append sample.last_slice (sample.noop 4)) = 0
  /\ raft_log_t.delete_entries_from
       (raft_log_t.append sample.last_slice (sample.noop 4))
       (Uint64.add (raft_log_t.get_latest_index sample.last_slice) 1)
     = GuaranteeFailed raft_log_t.msg_back
  /\ raft_log_t.get_entry_term
       (raft_log_t.append sample.last_slice (sample.noop 4))
       (raft_log_t.get_latest_index
          (raft_log_t.append sample.last_slice (sample.noop 4)))
     = GuaranteeFailed raft_log_t.msg_back
  /\ (forall i,
        raft_log_t.delete_entries_from
          (raft_log_t.append sample.last_slice (sample.noop 4)) i
        <> Ok sample.last_slice).
Proof.
  split; [by_evaluation|].
  repeat (split; [vm_compute; reflexivity|]).
  intros i. unfold raft_log_t.delete_entries_from.
  destruct (Z.gtb_spec i
              (raft_log_t.prev_index
                 (raft_log_t.append sample.last_slice (sample.noop 4))))
    as [Hgt|Hle]; [|discriminate].
  rewrite guarantee_true.
  destruct (Z.leb_spec i
              (raft_log_t.get_latest_index
                 (raft_log_t.append sample.last_slice (sample.noop 4))))
    as [Hle|Hgt']; [|discriminate].
  exfalso. revert Hgt Hle. vm_compute. intros Hgt Hle.
  destruct i; congruence.
Qed.

(** * Further properties of the log slice *)

Section log_guards.
Context `{Countable machine_id_t} {change_t : Type}.
Implicit Types (l : raft_log_t.t machine_id_t change_t)
               (e : raft_log_entry_t.t machine_id_t change_t)
               (i j : Z).

Import raft_log_t.

(** The first [guarantee] of the four methods. *)
Lemma back_guard l i :
  (i <= prev_index l ->
     get_entry_ref l i = GuaranteeFailed msg_back
     /\ delete_entries_from l i = GuaranteeFailed msg_back
     /\ delete_entries_to l i = GuaranteeFailed msg_back)
  /\ (i < prev_index l -> get_entry_term l i = GuaranteeFailed msg_back).
Proof.
  unfold get_entry_ref, delete_entries_from, delete_entries_to, get_entry_term.
  split; intros Hi.
  - destruct (Z.gtb_spec i (prev_index l)); [lia|].
    repeat split; reflexivity.
  - destruct (Z.geb_spec i (prev_index l)); [lia|]. reflexivity.
Qed.

(** Their second [guarantee]. *)
Lemma forward_guard l i :
  prev_index l < i -> get_latest_index l < i ->
  get_entry_ref l i = GuaranteeFailed msg_forward
  /\ get_entry_term l i = GuaranteeFailed msg_forward
  /\ delete_entries_from l i = GuaranteeFailed msg_forward
  /\ delete_entries_to l i = GuaranteeFailed msg_forward.
Proof.
  intros Hprev Hlatest.
  unfold get_entry_ref, delete_entries_from, delete_entries_to, get_entry_term.
  destruct (Z.gtb_spec i (prev_index l)); [|lia].
  destruct (Z.geb_spec i (prev_index l)); [|lia].
  destruct (Z.leb_spec i (get_latest_index l)); [lia|].
  repeat split; reflexivity.
Qed.

Lemma get_entry_term_window l i :
  well_formed l -> prev_index l <= i <= get_latest_index l ->
  exists t, get_entry_term l i = Ok t.
Proof.
  intros Hwf Hi. destruct (Z.eq_dec i (prev_index l)) as [Heq|Hne].
  - exists (prev_term l). apply get_entry_term_prev; [exact Heq|lia].
  - destruct (get_entry_ref_defined l i Hwf) as (e & _ & He); [lia|].
    exists (raft_log_entry_t.term e).
    apply get_entry_term_entry; [lia|exact He].
Qed.

(** X1. On a well-formed slice none of the four methods reaches the deque
    with an offset outside of it: whatever the index, the outcome is a
    result or a failed [guarantee]. *)
Theorem log_methods_stay_in_bounds l i :
  well_formed l ->
  get_entry_ref l i <> OutOfBounds
  /\ get_entry_term l i <> OutOfBounds
  /\ delete_entries_from l i <> OutOfBounds
  /\ delete_entries_to l i <> OutOfBounds.
Proof.
  intros Hwf.
  destruct (Z.le_gt_cases i (prev_index l)) as [Hle|Hgt].
  - destruct (back_guard l i) as [Hback Hterm].
    destruct (Hback Hle) as (-> & -> & ->).
    repeat split; try discriminate.
    destruct (Z.eq_dec i (prev_index l)) as [Heq|Hne].
    + destruct (Z.le_gt_cases i (get_latest_index l)) as [Hin|Hout].
      * rewrite (get_entry_term_prev l i Heq Hin). discriminate.
      * unfold get_entry_term.
        destruct (Z.geb_spec i (prev_index l)); [|lia].
        destruct (Z.leb_spec i (get_latest_index l)); [lia|]. discriminate.
    + rewrite Hterm by lia. discriminate.
  - destruct (Z.le_gt_cases i (get_latest_index l)) as [Hin|Hout].
    + destruct (get_entry_ref_defined l i Hwf (conj Hgt Hin)) as (e & _ & He).
      rewrite (delete_entries_to_Ok l i e Hwf (conj Hgt Hin) He).
      rewrite (delete_entries_from_Ok l i Hwf (conj Hgt Hin)).
      rewrite (get_entry_term_entry l i e (conj Hgt Hin) He), He.
      repeat split; discriminate.
    + destruct (forward_guard l i Hgt Hout) as (-> & -> & -> & ->).
      repeat split; discriminate.
Qed.

(** X2. The methods succeed exactly inside the slice: [get_entry_term] from
    [prev_index] to the latest index, the three others from the index after
    [prev_index]. An index before that fails with the message of the first
    [guarantee], an index past the latest one with the message of the
    second. *)
Theorem log_methods_succeed_in_window l i :
  well_formed l ->
  ((exists t, get_entry_term l i = Ok t) <->
     prev_index l <= i <= get_latest_index l)
  /\ ((exists e, get_entry_ref l i = Ok e) <->
       prev_index l < i <= get_latest_index l)
  /\ ((exists l', delete_entries_from l i = Ok l') <->
       prev_index l < i <= get_latest_index l)
  /\ ((exists l', delete_entries_to l i = Ok l') <->
       prev_index l < i <= get_latest_index l)
  /\ (i < prev_index l -> get_entry_term l i = GuaranteeFailed msg_back)
  /\ (i <= prev_index l ->
       get_entry_ref l i = GuaranteeFailed msg_back
       /\ delete_entries_from l i = GuaranteeFailed msg_back
       /\ delete_entries_to l i = GuaranteeFailed msg_back)
  /\ (prev_index l < i -> get_latest_index l < i ->
       get_entry_ref l i = GuaranteeFailed msg_forward
       /\ get_entry_term l i = GuaranteeFailed msg_forward
       /\ delete_entries_from l i = GuaranteeFailed msg_forward
       /\ delete_entries_to l i = GuaranteeFailed msg_forward).
Proof.
  intros Hwf.
  destruct (back_guard l i) as [Hback Hterm].
  pose proof (forward_guard l i) as Hforward.
  assert (Hin : prev_index l < i <= get_latest_index l ->
            (exists e, get_entry_ref l i = Ok e)
            /\ (exists l', delete_entries_from l i = Ok l')
            /\ (exists l', delete_entries_to l i = Ok l')).
  { intros Hi.
    destruct (get_entry_ref_defined l i Hwf Hi) as (e & _ & He).
    rewrite (delete_entries_to_Ok l i e Hwf Hi He).
    rewrite (delete_entries_from_Ok l i Hwf Hi), He.
    repeat split; eexists; reflexivity. }
  assert (Hout : ~ prev_index l < i <= get_latest_index l ->
            (forall e, get_entry_ref l i <> Ok e)
            /\ (forall l', delete_entries_from l i <> Ok l')
            /\ (forall l', delete_entries_to l i <> Ok l')).
  { intros Hi. destruct (Z.le_gt_cases i (prev_index l)) as [Hle|Hgt].
    - destruct (Hback Hle) as (-> & -> & ->). repeat split; discriminate.
    - destruct (Hforward Hgt) as (-> & _ & -> & ->); [lia|].
      repeat split; discriminate. }
  split; [|split; [|split; [|split; [|split; [|split]]]]];
    try assumption.
  - split; [|apply get_entry_term_window, Hwf].
    intros [t Ht].
    destruct (Z.lt_ge_cases i (prev_index l)) as [Hlt|Hge].
    + rewrite (Hterm Hlt) in Ht. discriminate.
    + destruct (Z.le_gt_cases i (get_latest_index l)) as [Hle|Hgt]; [lia|].
      unfold get_entry_term in Ht.
      destruct (Z.geb_spec i (prev_index l)); [|lia].
      destruct (Z.leb_spec i (get_latest_index l)); [lia|]. discriminate.
  - split; [|intros Hi; apply (Hin Hi)].
    intros [e He].
    destruct (Z.le_gt_cases i (prev_index l)); [|
      destruct (Z.le_gt_cases i (get_latest_index l)); [lia|]];
      exfalso; apply (proj1 (Hout ltac:(lia)) e He).
  - split; [|intros Hi; apply (Hin Hi)].
    intros [l' Hl'].
    destruct (Z.le_gt_cases i (prev_index l)); [|
      destruct (Z.le_gt_cases i (get_latest_index l)); [lia|]];
      exfalso; apply (proj1 (proj2 (Hout ltac:(lia))) l' Hl').
  - split; [|intros Hi; apply (Hin Hi)].
    intros [l' Hl'].
    destruct (Z.le_gt_cases i (prev_index l)); [|
      destruct (Z.le_gt_cases i (get_latest_index l)); [lia|]];
      exfalso; apply (proj2 (proj2 (Hout ltac:(lia))) l' Hl').
Qed.

End log_guards.

Section log_composition.
Context `{Countable machine_id_t} {change_t : Type}.
Implicit Types (l : raft_log_t.t machine_id_t change_t)
               (e : raft_log_entry_t.t machine_id_t change_t)
               (i j : Z).

Import raft_log_t.

Lemma latest_of_window l i :
  well_formed l -> prev_index l < i <= get_latest_index l ->
  get_latest_index l = prev_index l + Z.of_nat (length (entries l))
  /\ get_latest_index l <= Uint64.max.
Proof.
  intros Hwf Hi. destruct (window_arith l i Hwf Hi) as (Hlatest & _).
  pose proof (get_latest_index_in_range l) as [_ Hmax].
  split; assumption.
Qed.

(** What [delete_entries_to] leaves: the facts about the slice
    [{i, t, drop (i - prev_index) entries}]. *)
Lemma after_delete_entries_to l i (t : Z) :
  well_formed l -> prev_index l < i <= get_latest_index l ->
  let l' := {| prev_index := i; prev_term := t;
               entries := drop (Z.to_nat (i - prev_index l)) (entries l) |} in
  well_formed l'
  /\ get_latest_index l' = get_latest_index l
  /\ forall j e, get_entry_ref l' j = Ok e <->
                 i < j /\ get_entry_ref l j = Ok e.
Proof.
  intros Hwf Hi l'.
  destruct (latest_of_window l i Hwf Hi) as [Hlatest Hmax].
  pose proof Hwf as (Hp & Hn).
  assert (Hlen : Z.of_nat (length (entries l'))
                 = Z.of_nat (length (entries l)) - (i - prev_index l)).
  { simpl. rewrite length_drop. lia. }
  assert (Hwf' : well_formed l').
  { unfold well_formed. rewrite Hlen. simpl. unfold Uint64.in_range in *.
    repeat split; lia. }
  assert (Hlatest' : get_latest_index l' = get_latest_index l).
  { unfold get_latest_index at 1, Uint64.of_nat.
    rewrite Hlen, Hlatest. simpl. uint64_arith. }
  split; [exact Hwf'|]. split; [exact Hlatest'|].
  intros j e. rewrite (get_entry_ref_Ok l' j e Hwf'),
    (get_entry_ref_Ok l j e Hwf), Hlatest'. simpl.
  rewrite lookup_drop. split.
  - intros [Hj Hlook].
    replace (Z.to_nat (i - prev_index l) + Z.to_nat (j - i - 1))%nat
      with (Z.to_nat (j - prev_index l - 1)) in Hlook by lia.
    repeat split; auto; lia.
  - intros (Hij & Hj & Hlook).
    replace (Z.to_nat (i - prev_index l) + Z.to_nat (j - i - 1))%nat
      with (Z.to_nat (j - prev_index l - 1)) by lia.
    repeat split; auto; lia.
Qed.

(** What [delete_entries_from] leaves. *)
Lemma after_delete_entries_from l i :
  well_formed l -> prev_index l < i <= get_latest_index l ->
  let l' := {| prev_index := prev_index l; prev_term := prev_term l;
               entries := take (Z.to_nat (i - prev_index l - 1))
                               (entries l) |} in
  well_formed l'
  /\ get_latest_index l' = i - 1
  /\ forall j e, get_entry_ref l' j = Ok e <->
                 j < i /\ get_entry_ref l j = Ok e.
Proof.
  intros Hwf Hi l'.
  destruct (latest_of_window l i Hwf Hi) as [Hlatest Hmax].
  pose proof Hwf as (Hp & Hn).
  assert (Hlen : Z.of_nat (length (entries l')) = i - prev_index l - 1).
  { simpl. rewrite length_take. lia. }
  assert (Hwf' : well_formed l').
  { unfold well_formed. rewrite Hlen. simpl. unfold Uint64.in_range in *.
    repeat split; lia. }
  assert (Hlatest' : get_latest_index l' = i - 1).
  { unfold get_latest_index, Uint64.of_nat. rewrite Hlen. simpl.
    uint64_arith. }
  split; [exact Hwf'|]. split; [exact Hlatest'|].
  intros j e. rewrite (get_entry_ref_Ok l' j e Hwf'),
    (get_entry_ref_Ok l j e Hwf), Hlatest'. simpl.
  rewrite lookup_take_Some. split.
  - intros (Hj & Hlook & _). repeat split; auto; lia.
  - intros (Hji & Hj & Hlook). repeat split; auto; lia.
Qed.

(** X3. A slice without entries has no index to delete from or to and no
    entry to return: the three methods fail at every index, and
    [get_entry_term] answers at [prev_index] only, with [prev_term]. *)
Theorem empty_slice_methods l i :
  well_formed l -> entries l = [] ->
  (forall e, get_entry_ref l i <> Ok e)
  /\ (forall l', delete_entries_from l i <> Ok l')
  /\ (forall l', delete_entries_to l i <> Ok l')
  /\ (forall t, get_entry_term l i = Ok t <-> i = prev_index l /\ t = prev_term l).
Proof.
  intros Hwf Hnil.
  assert (Hlatest : get_latest_index l = prev_index l).
  { destruct Hwf as (Hp & Hn). unfold get_latest_index. rewrite Hnil. simpl.
    uint64_arith. }
  destruct (back_guard l i) as [Hback Hterm].
  pose proof (forward_guard l i) as Hforward.
  rewrite Hlatest in Hforward.
  assert (Hfail : (forall e, get_entry_ref l i <> Ok e)
                  /\ (forall l', delete_entries_from l i <> Ok l')
                  /\ (forall l', delete_entries_to l i <> Ok l')).
  { destruct (Z.le_gt_cases i (prev_index l)) as [Hle|Hgt].
    - destruct (Hback Hle) as (-> & -> & ->). repeat split; discriminate.
    - destruct (Hforward Hgt Hgt) as (-> & _ & -> & ->).
      repeat split; discriminate. }
  destruct Hfail as (H1 & H2 & H3).
  repeat (split; [assumption|]).
  intros t. split.
  - intros Ht.
    destruct (Z.lt_trichotomy i (prev_index l)) as [Hlt|[Heq|Hgt]].
    + rewrite (Hterm Hlt) in Ht. discriminate.
    + rewrite (get_entry_term_prev l i Heq) in Ht by lia.
      injection Ht as <-. split; [exact Heq|reflexivity].
    + destruct (Hforward Hgt Hgt) as (_ & Hf & _).
      rewrite Hf in Ht. discriminate.
  - intros [-> ->]. apply get_entry_term_prev; [reflexivity|lia].
Qed.



(** X6. The two deletions commute: cutting the slice down to the indices
    between [i] and [j] gives the same slice whichever end is cut first. *)
Theorem delete_entries_to_from_commute l i j :
  well_formed l ->
  prev_index l < i -> i < j -> j <= get_latest_index l ->
  (l1 ← delete_entries_to l i; delete_entries_from l1 j)
  = (l2 ← delete_entries_from l j; delete_entries_to l2 i)
  /\ exists l', (l1 ← delete_entries_to l i; delete_entries_from l1 j) = Ok l'
                /\ prev_index l' = i /\ get_latest_index l' = j - 1.
Proof.
  intros Hwf Hi Hij Hj.
  assert (Hwi : prev_index l < i <= get_latest_index l) by lia.
  assert (Hwj : prev_index l < j <= get_latest_index l) by lia.
  destruct (get_entry_ref_defined l i Hwf Hwi) as (ei & _ & Hei).
  rewrite (delete_entries_to_Ok l i ei Hwf Hwi Hei).
  rewrite (delete_entries_from_Ok l j Hwf Hwj).
  destruct (after_delete_entries_to l i (raft_log_entry_t.term ei) Hwf Hwi)
    as (Hwf1 & Hlatest1 & Hrefs1).
  destruct (after_delete_entries_from l j Hwf Hwj)
    as (Hwf2 & Hlatest2 & Hrefs2).
  simpl.
  rewrite (delete_entries_from_Ok _ j Hwf1) by (simpl; lia).
  rewrite (delete_entries_to_Ok _ i ei Hwf2);
    [|simpl; lia|apply Hrefs2; split; [lia|exact Hei]].
  simpl. rewrite take_drop_commute.
  replace (Z.to_nat (i - prev_index l) + Z.to_nat (j - i - 1))%nat
    with (Z.to_nat (j - prev_index l - 1)) by lia.
  split; [reflexivity|].
  eexists. split; [reflexivity|]. split; [reflexivity|].
  destruct (after_delete_entries_from _ j Hwf1) as (_ & Hlatest & _);
    [simpl; lia|].
  simpl in Hlatest. rewrite take_drop_commute in Hlatest.
  replace (Z.to_nat (i - prev_index l) + Z.to_nat (j - i - 1))%nat
    with (Z.to_nat (j - prev_index l - 1)) in Hlatest by lia.
  exact Hlatest.
Qed.

(** X7. With room for one more index, [append] leaves every earlier entry
    and term where it was: the entries of the new slice are the old ones at
    their indices and the new entry at the index after the old latest
    one. *)
Theorem append_keeps_entries l e :
  well_formed l ->
  prev_index l + Z.of_nat (length (entries l)) < Uint64.max ->
  (forall i e', get_entry_ref (append l e) i = Ok e' <->
                get_entry_ref l i = Ok e'
                \/ (i = get_latest_index l + 1 /\ e' = e))
  /\ (forall i, prev_index l <= i <= get_latest_index l ->
                get_entry_term (append l e) i = get_entry_term l i).
Proof.
  intros Hwf Hroom. pose proof Hwf as (Hp & Hn).
  assert (Hlen : Z.of_nat (length (entries (append l e)))
                 = Z.of_nat (length (entries l)) + 1).
  { simpl. unfold deque_push_back. rewrite length_app. simpl. lia. }
  assert (Hlatest : get_latest_index l
                    = prev_index l + Z.of_nat (length (entries l))).
  { unfold get_latest_index. uint64_arith. }
  assert (Hlatest' : get_latest_index (append l e) = get_latest_index l + 1).
  { rewrite Hlatest. unfold get_latest_index, Uint64.of_nat.
    rewrite Hlen. simpl. uint64_arith. }
  assert (Hwf' : well_formed (append l e)).
  { unfold well_formed. rewrite Hlen. simpl. unfold Uint64.in_range in *.
    repeat split; lia. }
  assert (Hrefs : forall i e', get_entry_ref (append l e) i = Ok e' <->
                    get_entry_ref l i = Ok e'
                    \/ (i = get_latest_index l + 1 /\ e' = e)).
  { intros i e'.
    rewrite (get_entry_ref_Ok _ i e' Hwf'), (get_entry_ref_Ok l i e' Hwf),
      Hlatest'. simpl. unfold deque_push_back.
    rewrite lookup_app_Some, list_lookup_singleton_Some. split.
    - intros (Hi & [Hold|(Hge & Hidx & <-)]).
      + left. apply lookup_lt_Some in Hold as Hlt. split; [lia|exact Hold].
      + right. split; [lia|reflexivity].
    - intros [(Hi & Hold)|(-> & ->)].
      + split; [lia|]. left. exact Hold.
      + split; [lia|]. right. split; [lia|]. split; [lia|reflexivity]. }
  split; [exact Hrefs|].
  intros i Hi. destruct (Z.eq_dec i (prev_index l)) as [Heq|Hne].
  - rewrite (get_entry_term_prev l i Heq) by lia.
    apply (get_entry_term_prev (append l e) i); simpl; [exact Heq|lia].
  - destruct (get_entry_ref_defined l i Hwf) as (e' & _ & He'); [lia|].
    rewrite (get_entry_term_entry l i e') by (auto; lia).
    apply (get_entry_term_entry (append l e) i e'); [simpl; lia|].
    apply Hrefs. left. exact He'.
Qed.

(** X8. The methods keep a slice well formed, and a deletion that succeeds
    removes at least one entry. *)
Theorem well_formed_kept l :
  well_formed l ->
  (forall i l', delete_entries_from l i = Ok l' ->
     well_formed l'
     /\ (length (entries l') < length (entries l))%nat)
  /\ (forall i l', delete_entries_to l i = Ok l' ->
       well_formed l'
       /\ (length (entries l') < length (entries l))%nat)
  /\ (prev_index l + Z.of_nat (length (entries l)) < Uint64.max ->
       forall e, well_formed (append l e)).
Proof.
  intros Hwf.
  assert (Hwin : forall i,
            (exists l', delete_entries_from l i = Ok l')
            \/ (exists l', delete_entries_to l i = Ok l') ->
            prev_index l < i <= get_latest_index l).
  { intros i Hok.
    destruct (Z.le_gt_cases i (prev_index l)) as [Hle|Hgt].
    - destruct (proj1 (back_guard l i) Hle) as (_ & Hf & Ht).
      rewrite Hf, Ht in Hok. destruct Hok as [[l' [=]]|[l' [=]]].
    - destruct (Z.le_gt_cases i (get_latest_index l)) as [Hin|Hout]; [lia|].
      destruct (forward_guard l i Hgt Hout) as (_ & _ & Hf & Ht).
      rewrite Hf, Ht in Hok. destruct Hok as [[l' [=]]|[l' [=]]]. }
  split; [|split].
  - intros i l' Hdel.
    assert (Hi := Hwin i (or_introl (ex_intro _ l' Hdel))).
    destruct (window_arith l i Hwf Hi) as (_ & _ & _ & Hoff).
    rewrite (delete_entries_from_Ok l i Hwf Hi) in Hdel.
    injection Hdel as <-.
    split; [apply (after_delete_entries_from l i Hwf Hi)|].
    simpl. rewrite length_take. lia.
  - intros i l' Hdel.
    assert (Hi := Hwin i (or_intror (ex_intro _ l' Hdel))).
    destruct (window_arith l i Hwf Hi) as (_ & _ & _ & Hoff).
    destruct (get_entry_ref_defined l i Hwf Hi) as (e & _ & He).
    rewrite (delete_entries_to_Ok l i e Hwf Hi He) in Hdel.
    injection Hdel as <-.
    split; [apply (after_delete_entries_to l i _ Hwf Hi)|].
    simpl. rewrite length_drop. lia.
  - intros Hroom e. destruct Hwf as (Hp & Hn).
    unfold well_formed. simpl. unfold deque_push_back.
    rewrite length_app. simpl. unfold Uint64.in_range in *.
    repeat split; lia.
Qed.

(** X9. Deleting everything: [delete_entries_from] at the index after
    [prev_index] and [delete_entries_to] at the latest index both leave a
    slice without entries, the first at the old [prev_index], the second at
    the old latest index with the term the slice had there (the term of its
    last entry). *)
Theorem delete_all_entries l :
  well_formed l ->
  prev_index l < get_latest_index l ->
  delete_entries_from l (prev_index l + 1)
  = Ok {| prev_index := prev_index l; prev_term := prev_term l;
          entries := [] |}
  /\ exists t, get_entry_term l (get_latest_index l) = Ok t
               /\ (exists e,
                     entries l
                       !! Z.to_nat (get_latest_index l - prev_index l - 1)
                     = Some e
                     /\ t = raft_log_entry_t.term e)
               /\ delete_entries_to l (get_latest_index l)
                  = Ok {| prev_index := get_latest_index l; prev_term := t;
                          entries := [] |}.
Proof.
  intros Hwf Hne.
  assert (Hfirst : prev_index l < prev_index l + 1 <= get_latest_index l)
    by lia.
  assert (Hlast : prev_index l < get_latest_index l <= get_latest_index l)
    by lia.
  destruct (window_arith l _ Hwf Hlast) as (Hlatest & _).
  split.
  - rewrite (delete_entries_from_Ok l _ Hwf Hfirst).
    replace (Z.to_nat (prev_index l + 1 - prev_index l - 1)) with 0%nat
      by lia.
    reflexivity.
  - destruct (get_entry_ref_defined l _ Hwf Hlast) as (e & Hstored & He).
    exists (raft_log_entry_t.term e).
    split; [apply get_entry_term_entry; assumption|].
    split; [exists e; split; [exact Hstored|reflexivity]|].
    rewrite (delete_entries_to_Ok l _ e Hwf Hlast He).
    rewrite drop_ge by lia. reflexivity.
Qed.

End log_composition.

(** * Further properties of the configurations *)

Section config_more.
Context `{Countable machine_id_t}.
Implicit Types (c nc : raft_config_t.t machine_id_t)
               (cc : raft_complex_config_t.t machine_id_t)
               (V S T : gset machine_id_t) (m : machine_id_t).

Import raft_config_t.

Lemma strict_majority_mono V S T :
  S ⊆ T -> strict_majority V S -> strict_majority V T.
Proof.
  unfold strict_majority. intros Hsub HS.
  assert (size (S ∩ V) <= size (T ∩ V))%nat
    by (apply subseteq_size; set_solver).
  lia.
Qed.

Lemma strict_majority_inhabited V S :
  strict_majority V S -> exists m, m ∈ S /\ m ∈ V.
Proof.
  intros HS. destruct (strict_majority_meet V S S HS HS) as (m & Hm & _ & HV).
  exists m. split; assumption.
Qed.

Lemma complex_is_quorum_both cc S :
  raft_complex_config_t.is_quorum cc S = true <->
  is_quorum (raft_complex_config_t.config cc) S = true
  /\ forall nc, raft_complex_config_t.new_config cc = Some nc ->
                is_quorum nc S = true.
Proof.
  unfold raft_complex_config_t.is_quorum.
  destruct (raft_complex_config_t.new_config cc) as [nc|].
  - rewrite andb_true_iff. split.
    + intros [H1 H2]. split; [exact H1|]. intros nc' [= <-]. exact H2.
    + intros [H1 H2]. split; [exact H1|]. apply H2. reflexivity.
  - split.
    + intros H1. split; [exact H1|]. intros nc' [=].
    + intros [H1 _]. exact H1.
Qed.

(** X10. A set that contains a quorum is a quorum, for a configuration and
    for a complex configuration: more members never lose a vote. *)
Theorem is_quorum_monotone c cc S T :
  fits_in_memory (voting_members c) ->
  raft_complex_config_t.voting_sets_fit_in_memory cc ->
  S ⊆ T ->
  (is_quorum c S = true -> is_quorum c T = true)
  /\ (raft_complex_config_t.is_quorum cc S = true ->
      raft_complex_config_t.is_quorum cc T = true).
Proof.
  intros Hc [Hold Hnew] Hsub.
  assert (Hmono : forall c', fits_in_memory (voting_members c') ->
            is_quorum c' S = true -> is_quorum c' T = true).
  { intros c' Hfit. rewrite !(is_quorum_majority c' _ Hfit).
    apply strict_majority_mono, Hsub. }
  split; [apply Hmono, Hc|].
  rewrite !complex_is_quorum_both. intros [H1 H2]. split.
  - apply Hmono; assumption.
  - intros nc Hnc. apply Hmono; [apply Hnew, Hnc|apply H2, Hnc].
Qed.

(** X11. Whoever may lead is a member: a valid leader of a configuration
    is among its members, and a valid leader of a complex configuration
    among the members of that. *)
Theorem valid_leader_is_member c cc m :
  (is_valid_leader c m = true -> m ∈ get_all_members c)
  /\ (raft_complex_config_t.is_valid_leader cc m = true ->
      m ∈ raft_complex_config_t.get_all_members cc).
Proof.
  assert (Hsimple : forall c', is_valid_leader c' m = true ->
            m ∈ get_all_members c').
  { intros c' Hm. apply is_valid_leader_voting in Hm.
    rewrite get_all_members_union. set_solver. }
  split; [apply Hsimple|].
  unfold raft_complex_config_t.is_valid_leader,
    raft_complex_config_t.get_all_members.
  rewrite orb_true_iff.
  destruct (raft_complex_config_t.new_config cc) as [nc|].
  - rewrite insert_range_union.
    intros [Hm|Hm]; apply Hsimple in Hm; set_solver.
  - intros [Hm|Hm]; [apply Hsimple, Hm|discriminate].
Qed.

(** X12. In a joint consensus a quorum of the complex configuration meets
    every quorum of the old configuration in a voting member of the old
    one, and every quorum of the new configuration in a voting member of the
    new one: neither side can reach an agreement of its own against it. *)
Theorem joint_quorum_meets_both_sides cc nc S T :
  raft_complex_config_t.voting_sets_fit_in_memory cc ->
  raft_complex_config_t.new_config cc = Some nc ->
  raft_complex_config_t.is_quorum cc S = true ->
  (is_quorum (raft_complex_config_t.config cc) T = true ->
     exists m, m ∈ S /\ m ∈ T
               /\ m ∈ voting_members (raft_complex_config_t.config cc))
  /\ (is_quorum nc T = true ->
      exists m, m ∈ S /\ m ∈ T /\ m ∈ voting_members nc).
Proof.
  intros [Hold Hnew] Hnc [HSold HSnew]%complex_is_quorum_both.
  specialize (HSnew nc Hnc). specialize (Hnew nc Hnc).
  rewrite (is_quorum_majority _ S Hold) in HSold.
  rewrite (is_quorum_majority _ S Hnew) in HSnew.
  split; intros HT.
  - rewrite (is_quorum_majority _ T Hold) in HT.
    apply strict_majority_meet; assumption.
  - rewrite (is_quorum_majority _ T Hnew) in HT.
    apply strict_majority_meet; assumption.
Qed.

(** X13. Every quorum holds a member that may lead, and the set of all
    members of a configuration is a quorum exactly when somebody votes. *)
Theorem quorum_has_valid_leader c cc S :
  fits_in_memory (voting_members c) ->
  fits_in_memory (voting_members (raft_complex_config_t.config cc)) ->
  (is_quorum c S = true ->
     exists m, m ∈ S /\ is_valid_leader c m = true)
  /\ (raft_complex_config_t.is_quorum cc S = true ->
      exists m, m ∈ S
                /\ raft_complex_config_t.is_valid_leader cc m = true)
  /\ (is_quorum c (get_all_members c) = true <-> voting_members c <> ∅).
Proof.
  intros Hc Hold.
  assert (Hlead : forall c', fits_in_memory (voting_members c') ->
            is_quorum c' S = true ->
            exists m, m ∈ S /\ is_valid_leader c' m = true).
  { intros c' Hfit HS. rewrite (is_quorum_majority c' S Hfit) in HS.
    destruct (strict_majority_inhabited _ _ HS) as (m & Hm & HV).
    exists m. split; [exact Hm|]. apply is_valid_leader_voting, HV. }
  split; [apply Hlead, Hc|]. split.
  - intros [HS _]%complex_is_quorum_both.
    destruct (Hlead _ Hold HS) as (m & Hm & Hl).
    exists m. split; [exact Hm|].
    unfold raft_complex_config_t.is_valid_leader. rewrite Hl. reflexivity.
  - rewrite (is_quorum_majority c _ Hc), get_all_members_union.
    unfold strict_majority.
    replace ((voting_members c ∪ non_voting_members c) ∩ voting_members c)
      with (voting_members c) by set_solver.
    split.
    + intros Hlt Hnil. rewrite Hnil, size_empty in Hlt. lia.
    + intros Hne.
      assert (size (voting_members c) <> 0)%nat
        by (intros Hz; apply Hne, leibniz_equiv, size_empty_iff, Hz).
      lia.
Qed.

End config_more.

(** * The query environment *)

Section is_joined_facts.
Context {T : Type} `{EqDecision T}.
Variable join : T -> T -> T.
Hypothesis join_assoc : forall a b c, join (join a b) c = join a (join b c).
Hypothesis join_comm : forall a b, join a b = join b a.
Hypothesis join_idem : forall a, join a a = a.

Lemma is_joined_true (a b : T) : ql.is_joined join a b = true <-> join a b = a.
Proof. unfold ql.is_joined. apply bool_decide_eq_true. Qed.

(** X14. When the join is a semilattice operation (associative,
    commutative, idempotent), [is_joined] is the order of the semilattice:
    it holds of a value and itself, of a join and each of its two arguments,
    it is transitive, and two values joined in each other are equal. *)
Theorem is_joined_is_an_order (a b c : T) :
  ql.is_joined join a a = true
  /\ ql.is_joined join (join a b) a = true
  /\ ql.is_joined join (join a b) b = true
  /\ (ql.is_joined join a b = true -> ql.is_joined join b c = true ->
      ql.is_joined join a c = true)
  /\ (ql.is_joined join a b = true -> ql.is_joined join b a = true -> a = b).
Proof.
  rewrite !is_joined_true. repeat split.
  - apply join_idem.
  - rewrite (join_comm a b), join_assoc, join_idem. reflexivity.
  - rewrite join_assoc, join_idem. reflexivity.
  - intros Hab Hbc. rewrite <- Hab at 1. rewrite join_assoc, Hbc. exact Hab.
  - intros Hab Hba. rewrite <- Hab, join_comm. exact Hba.
Qed.

End is_joined_facts.

Lemma is_joined_is_an_order_witness :
  ql.is_joined Z.max (Z.max 3 5) 5 = true
  /\ (ql.is_joined Z.max 5 3 = true -> ql.is_joined Z.max 3 1 = true ->
      ql.is_joined Z.max 5 1 = true).
Proof.
  destruct (is_joined_is_an_order Z.max
              ltac:(intros; lia) ltac:(intros; lia) ltac:(intros; lia) 3 5 1)
    as (_ & _ & Hb & _).
  split; [exact Hb|].
  apply (is_joined_is_an_order Z.max
           ltac:(intros; lia) ltac:(intros; lia) ltac:(intros; lia) 5 3 1).
Defined.

Section global_optargs_facts.
Variables env_t Term wire_func_t val_t : Type.
Variable make_wire_func : env_t -> Term -> wire_func_t.
Variable call_wire_func : env_t -> wire_func_t -> val_t.
Implicit Types (optargs : gmap string wire_func_t) (env : env_t)
               (key : string) (val : Term).

Import ql.global_optargs_t.

Lemma map_count_zero optargs key :
  (map_count optargs key =? 0) = true <-> optargs !! key = None.
Proof.
  unfold map_count. destruct (optargs !! key); split; intros; done.
Qed.

Lemma get_optarg_lookup optargs env key :
  get_optarg call_wire_func optargs env key
  = call_wire_func env <$> optargs !! key.
Proof.
  unfold get_optarg, map_count. destruct (optargs !! key); reflexivity.
Qed.

Lemma add_optarg_free optargs env key val :
  optargs !! key = None ->
  add_optarg make_wire_func optargs env key val
  = (false, <[ key := make_wire_func env val ]> optargs).
Proof.
  intros Hfree. unfold add_optarg.
  rewrite (proj2 (map_count_zero optargs key) Hfree). reflexivity.
Qed.

Lemma add_optarg_bound optargs env key val :
  is_Some (optargs !! key) ->
  add_optarg make_wire_func optargs env key val = (true, optargs).
Proof.
  intros [f Hf]. unfold add_optarg, map_count. rewrite Hf. reflexivity.
Qed.

(** X15. An optarg added under a free key is found again: [add_optarg]
    reports no conflict, [get_optarg] of the key, empty before, then
    returns the call of the function built from the value, and the other
    keys answer as before. *)
Theorem add_optarg_then_get_optarg optargs env env' key val :
  optargs !! key = None ->
  get_optarg call_wire_func optargs env' key = None
  /\ (add_optarg make_wire_func optargs env key val).1 = false
  /\ get_optarg call_wire_func
       (add_optarg make_wire_func optargs env key val).2 env' key
     = Some (call_wire_func env' (make_wire_func env val))
  /\ forall key', key' <> key ->
       get_optarg call_wire_func
         (add_optarg make_wire_func optargs env key val).2 env' key'
       = get_optarg call_wire_func optargs env' key'.
Proof.
  intros Hfree. rewrite (add_optarg_free _ env key val Hfree). simpl.
  rewrite !get_optarg_lookup, Hfree, lookup_insert_eq.
  repeat split.
  intros key' Hne. rewrite !get_optarg_lookup, lookup_insert_ne by done.
  reflexivity.
Qed.

(** X16. The first optarg of a key wins: [add_optarg] reports a conflict
    exactly when the key is in the map, and then changes nothing; so after
    one [add_optarg] of a key every other one is a conflict that leaves the
    answer of [get_optarg] as it was. *)
Theorem add_optarg_first_wins optargs env env2 env' key val val2 :
  ((add_optarg make_wire_func optargs env key val).1 = true <->
     is_Some (optargs !! key))
  /\ ((add_optarg make_wire_func optargs env key val).1 = true ->
      (add_optarg make_wire_func optargs env key val).2 = optargs)
  /\ (let optargs1 := (add_optarg make_wire_func optargs env key val).2 in
      add_optarg make_wire_func optargs1 env2 key val2 = (true, optargs1)
      /\ is_Some (get_optarg call_wire_func optargs1 env' key)).
Proof.
  destruct (optargs !! key) as [f|] eqn:Hkey.
  - rewrite (add_optarg_bound optargs env key val) by (rewrite Hkey; eauto).
    simpl. repeat split; eauto.
    + apply add_optarg_bound. rewrite Hkey. eauto.
    + rewrite get_optarg_lookup, Hkey. simpl. eauto.
  - rewrite (add_optarg_free optargs env key val Hkey). simpl.
    repeat split; try discriminate.
    + intros [f Hf]. discriminate.
    + apply add_optarg_bound. rewrite lookup_insert_eq. eauto.
    + rewrite get_optarg_lookup, lookup_insert_eq. simpl. eauto.
Qed.

End global_optargs_facts.

Section init_optargs_facts.
Variables env_t Term wire_func_t : Type.
Variable make_wire_func : env_t -> Term -> wire_func_t.
Variable compiles : env_t -> wire_func_t -> bool.
Implicit Types (optargs : gmap string wire_func_t) (env : env_t)
               (key : string) (val : Term).

Import ql.global_optargs_t.

(** X17. [init_optargs] only starts from the empty map: on any other one the
    sanity check fails and the map stays. When it returns, every function of
    the map it was given compiled, the map is what [get_all_optargs] returns,
    and each of its keys is a conflict for [add_optarg]. *)
Theorem init_optargs_installs optargs env (_optargs : gmap string wire_func_t) :
  (optargs <> ∅ ->
     init_optargs compiles optargs env _optargs = (false, optargs))
  /\ (forall optargs',
       init_optargs compiles empty env _optargs = (true, optargs') ->
       get_all_optargs optargs' = _optargs
       /\ forall key f, _optargs !! key = Some f ->
            compiles env f = true
            /\ forall env2 val,
                 add_optarg make_wire_func optargs' env2 key val
                 = (true, optargs')).
Proof.
  split.
  - intros Hne. unfold init_optargs.
    destruct (Z.eqb_spec (Z.of_nat (size optargs)) 0) as [Hz|_];
      [|reflexivity].
    exfalso. apply Hne. apply map_size_empty_iff. lia.
  - intros optargs'. unfold init_optargs, empty.
    rewrite map_size_empty. simpl.
    intros [= Hall <-]. split; [reflexivity|].
    intros key f Hf. split.
    + rewrite forallb_forall in Hall.
      apply (Hall (key, f)). apply list_elem_of_In, elem_of_map_to_list, Hf.
    + intros env2 val. unfold add_optarg, map_count. rewrite Hf. reflexivity.
Qed.

End init_optargs_facts.

(** * The driver of the web interface *)

Section match_facts.
Variable term : Type.
Variable r_error : string -> term.
Variable r_branch : term -> term -> term -> term.
Variable r_expr : term -> term.
Variable eq : term -> term -> term.
Variable to_string : term -> string.


(** X18. [helpers.match] tests the specs in the order in which they are
    given: without specs the result is the error term, and otherwise it is
    a branch on the first spec, whose last argument is the match of the
    other specs. *)
Theorem match_tests_in_order (variable val action : term)
    (specs : list (term * term)) :
  Driver.match_ r_error r_branch r_expr eq to_string variable []
  = r_error ("nothing matched " +:+ to_string variable)
  /\ Driver.match_ r_error r_branch r_expr eq to_string variable
       ((val, action) :: specs)
     = r_branch (eq (r_expr variable) val) action
         (Driver.match_ r_error r_branch r_expr eq to_string variable specs).
Proof.
  unfold Driver.match_. split; [reflexivity|].
  rewrite reverse_cons, foldl_app. reflexivity.
Qed.

End match_facts.

Section stop_timer_facts.
Variables connection_t timeout_t : Type.
Implicit Types (timers : gmap Z (Driver.timer_t connection_t timeout_t))
               (timer : Z).

(** X19. [stop_timer] forgets the timer it is given and no other; it closes
    the connection of that timer when there is one and nothing else.
    Stopping a timer that is not there (so also stopping a second time)
    leaves [@timers] as it is and closes nothing. *)
Theorem stop_timer_forgets_one_timer timers timer :
  (Driver.stop_timer timers timer).2 !! timer = None
  /\ (forall timer', timer' <> timer ->
        (Driver.stop_timer timers timer).2 !! timer' = timers !! timer')
  /\ (forall conn, Driver.close conn ∈ (Driver.stop_timer timers timer).1 <->
        exists t, timers !! timer = Some t
                  /\ Driver.connection t = Some conn)
  /\ (timers !! timer = None ->
        Driver.stop_timer timers timer
        = ([Driver.clearTimeout None], timers))
  /\ Driver.stop_timer (Driver.stop_timer timers timer).2 timer
     = ([Driver.clearTimeout None], (Driver.stop_timer timers timer).2).
Proof.
  assert (Hmissing : forall timers', timers' !! timer = None ->
            Driver.stop_timer timers' timer
            = ([Driver.clearTimeout None], timers')).
  { intros timers' Hnone. unfold Driver.stop_timer. rewrite Hnone. simpl.
    rewrite delete_id by exact Hnone. reflexivity. }
  split; [apply lookup_delete_eq|].
  split; [intros timer' Hne; apply lookup_delete_ne; congruence|].
  split; [|split; [apply Hmissing|apply Hmissing, lookup_delete_eq]].
  intros conn. unfold Driver.stop_timer. simpl.
  destruct (timers !! timer) as [t|]; simpl.
  - destruct (Driver.connection t) as [conn'|] eqn:Hconn; simpl.
    + rewrite elem_of_cons, list_elem_of_singleton. split.
      * intros [[=]|[= ->]]. exists t. split; [reflexivity|exact Hconn].
      * intros (t' & [= <-] & Hc). right. congruence.
    + rewrite list_elem_of_singleton. split.
      * intros [=].
      * intros (t' & [= <-] & Hc). congruence.
  - rewrite list_elem_of_singleton. split.
    + intros [=].
    + intros (t' & [=] & _).
Qed.

End stop_timer_facts.

(** * The further properties on sample values *)

Lemma sample_last_slice_well_formed : raft_log_t.well_formed sample.last_slice.
Proof. by_evaluation. Qed.

Lemma log_methods_stay_in_bounds_witness :
  raft_log_t.get_entry_ref sample.slice 20 <> OutOfBounds
  /\ raft_log_t.get_entry_term sample.slice 20 <> OutOfBounds
  /\ raft_log_t.delete_entries_from sample.slice 20 <> OutOfBounds
  /\ raft_log_t.delete_entries_to sample.slice 20 <> OutOfBounds.
Proof.
  exact (log_methods_stay_in_bounds sample.slice 20 sample_slice_well_formed).
Defined.

Lemma log_methods_succeed_in_window_witness :
  (exists t, raft_log_t.get_entry_term sample.slice 13 = Ok t)
  /\ raft_log_t.delete_entries_to sample.slice 14
     = GuaranteeFailed raft_log_t.msg_forward.
Proof.
  destruct (log_methods_succeed_in_window sample.slice 13
              sample_slice_well_formed) as (Hterm & _).
  destruct (log_methods_succeed_in_window sample.slice 14
              sample_slice_well_formed) as (_ & _ & _ & _ & _ & _ & Hfwd).
  split.
  - apply Hterm. by_evaluation.
  - apply Hfwd; reflexivity.
Defined.

Lemma empty_slice_methods_witness :
  (forall l', raft_log_t.delete_entries_from sample.last_slice 5 <> Ok l')
  /\ (forall t, raft_log_t.get_entry_term sample.last_slice 5 = Ok t <->
                5 = raft_log_t.prev_index sample.last_slice
                /\ t = raft_log_t.prev_term sample.last_slice).
Proof.
  destruct (empty_slice_methods sample.last_slice 5
              sample_last_slice_well_formed eq_refl) as (_ & Hfrom & _ & Hterm).
  exact (conj Hfrom Hterm).
Defined.



Lemma delete_entries_to_from_commute_witness :
  (l1 ← raft_log_t.delete_entries_to sample.slice 11;
   raft_log_t.delete_entries_from l1 13)
  = (l2 ← raft_log_t.delete_entries_from sample.slice 13;
     raft_log_t.delete_entries_to l2 11).
Proof.
  apply (delete_entries_to_from_commute sample.slice 11 13
           sample_slice_well_formed); reflexivity || by_evaluation.
Defined.

Lemma append_keeps_entries_witness :
  raft_log_t.get_entry_term
    (raft_log_t.append sample.slice (sample.noop 4)) 12
  = raft_log_t.get_entry_term sample.slice 12.
Proof.
  destruct (append_keeps_entries sample.slice (sample.noop 4)
              sample_slice_well_formed eq_refl) as [_ Hterms].
  apply Hterms. by_evaluation.
Defined.

Lemma well_formed_kept_witness :
  raft_log_t.well_formed (raft_log_t.append sample.slice (sample.noop 4))
  /\ raft_log_t.well_formed (raft_log_t.mk 10 2 [sample.regular 2 7]).
Proof.
  destruct (well_formed_kept sample.slice sample_slice_well_formed)
    as (Hfrom & _ & Happend).
  split.
  - apply Happend. reflexivity.
  - apply (Hfrom 12). vm_compute. reflexivity.
Defined.

Lemma delete_all_entries_witness :
  raft_log_t.delete_entries_from sample.slice 11
  = Ok (raft_log_t.mk 10 2 []).
Proof.
  apply (delete_all_entries sample.slice sample_slice_well_formed).
  reflexivity.
Defined.

Lemma is_quorum_monotone_witness :
  raft_config_t.is_quorum sample.old_config {[ 1; 2; 5 ]}%N = true
  /\ raft_complex_config_t.is_quorum sample.joint {[ 2; 3; 4; 6 ]}%N = true.
Proof.
  destruct sample_fits as [Hold Hjoint].
  split.
  - apply (is_quorum_monotone sample.old_config sample.joint
             {[ 1; 2 ]}%N {[ 1; 2; 5 ]}%N Hold Hjoint).
    + set_solver.
    + vm_compute. reflexivity.
  - apply (is_quorum_monotone sample.old_config sample.joint
             {[ 2; 3; 4 ]}%N {[ 2; 3; 4; 6 ]}%N Hold Hjoint).
    + set_solver.
    + vm_compute. reflexivity.
Defined.

Lemma joint_quorum_meets_both_sides_witness :
  exists m : N, m ∈ ({[ 2; 3; 4 ]}%N : gset N) /\ m ∈ ({[ 4; 5 ]}%N : gset N)
                /\ m ∈ raft_config_t.voting_members sample.new_config.
Proof.
  destruct sample_fits as [_ Hjoint].
  destruct (joint_quorum_meets_both_sides sample.joint sample.new_config
              {[ 2; 3; 4 ]}%N {[ 4; 5 ]}%N Hjoint eq_refl) as [_ Hnew].
  - vm_compute. reflexivity.
  - apply Hnew. vm_compute. reflexivity.
Defined.

Lemma quorum_has_valid_leader_witness :
  exists m : N, m ∈ ({[ 2; 3; 4 ]}%N : gset N)
                /\ raft_config_t.is_valid_leader sample.old_config m = true.
Proof.
  destruct sample_fits as [Hold _].
  destruct (quorum_has_valid_leader sample.old_config sample.joint
              {[ 2; 3; 4 ]}%N Hold Hold) as (Hlead & _).
  apply Hlead. vm_compute. reflexivity.
Defined.

Lemma add_optarg_then_get_optarg_witness :
  ql.global_optargs_t.get_optarg (fun _ : unit => Z.succ)
    (ql.global_optargs_t.add_optarg (fun _ : unit => Z.double)
       {[ "db" := 4 ]} tt "durability" 21).2 tt "durability"
  = Some 43.
Proof.
  destruct (add_optarg_then_get_optarg unit Z Z Z
              (fun _ => Z.double) (fun _ => Z.succ)
              {[ "db" := 4 ]} tt tt "durability" 21) as (_ & _ & Hget & _).
  - vm_compute. reflexivity.
  - exact Hget.
Defined.
